(** * Cash-flow netting: a shallow embedding of [cash_flow.py]

    The development models class [CashFlowGraph] of [cash_flow.py]:
    [add_transaction] (ledger aggregation on a [networkx.DiGraph]) and
    [optimize_transactions_floyd_warshall] (net balances, debtor/creditor
    partition and the two-cursor greedy matching loop).

    Amounts are integers ([Z]); parties are Python strings.  Python
    dictionaries keep insertion order, and so does every dictionary inside a
    [networkx.DiGraph]; they are modelled as association lists in which a key
    occurs at the position of its first insertion. *)

From Stdlib Require Import String.
From Stdlib Require Import List ZArith Bool Lia Permutation Arith.
Import ListNotations.

Local Open Scope string_scope.
Local Open Scope list_scope.
Local Open Scope Z_scope.

(** ** Outcomes of a Python call *)

Inductive exn : Type :=
| KeyError            (* subscript on a missing dictionary key *)
| IndexError          (* subscript outside a list *)
| InvalidAmount       (* named by the specification, raised nowhere in the source *)
| InvariantViolation. (* named by the specification, raised nowhere in the source *)

Inductive outcome (A : Type) : Type :=
| Returns (a : A)
| Raises (e : exn)
| OutOfFuel.

Arguments Returns {A} a.
Arguments Raises {A} e.
Arguments OutOfFuel {A}.

Definition bind {A B : Type} (c : outcome A) (k : A -> outcome B) : outcome B :=
  match c with
  | Returns a => k a
  | Raises e => Raises e
  | OutOfFuel => OutOfFuel
  end.

Notation "x <- c ;; k" := (bind c (fun x => k))
  (at level 61, c at next level, right associativity).
Notation "' p <- c ;; k" := (bind c (fun x => let 'p := x in k))
  (at level 61, p pattern, c at next level, right associativity).

(** ** Insertion-ordered dictionaries *)

Definition party : Type := string.

Module Dict.
Section WithValue.
Variable V : Type.

Definition t : Type := list (party * V).

Definition keys (d : t) : list party := map fst d.

(** [d.get(k)] *)
Fixpoint get (d : t) (k : party) : option V :=
  match d with
  | [] => None
  | (k', v) :: rest => if String.eqb k' k then Some v else get rest k
  end.

(** [k in d] *)
Definition contains (d : t) (k : party) : bool :=
  match get d k with Some _ => true | None => false end.

(** [d.get(k, dflt)] *)
Definition get_default (d : t) (k : party) (dflt : V) : V :=
  match get d k with Some v => v | None => dflt end.

(** [d[k] = v]: an existing key keeps its position, a new key goes last. *)
Fixpoint set (d : t) (k : party) (v : V) : t :=
  match d with
  | [] => [(k, v)]
  | (k', v') :: rest =>
      if String.eqb k' k then (k', v) :: rest else (k', v') :: set rest k v
  end.
End WithValue.
End Dict.

Arguments Dict.keys {V} d.
Arguments Dict.get {V} d k.
Arguments Dict.contains {V} d k.
Arguments Dict.get_default {V} d k dflt.
Arguments Dict.set {V} d k v.

(** ** Python lists indexed by position *)

Fixpoint list_update {A : Type} (l : list A) (n : nat) (x : A) : list A :=
  match l, n with
  | [], _ => []
  | _ :: rest, O => x :: rest
  | y :: rest, S n' => y :: list_update rest n' x
  end.

(** [l[n]] *)
Definition getitem {A : Type} (l : list A) (n : nat) : outcome A :=
  match nth_error l n with
  | Some x => Returns x
  | None => Raises IndexError
  end.

(** [l[n] = x] *)
Definition setitem {A : Type} (l : list A) (n : nat) (x : A) : outcome (list A) :=
  if (n <? length l)%nat then Returns (list_update l n x) else Raises IndexError.

(** ** The part of [networkx.DiGraph] the program uses

    A [DiGraph] is its successor dictionary [_adj]: node -> (successor ->
    weight).  Every node has an entry, in order of insertion; the edge data
    dictionary only ever holds the key ['weight']. *)

Definition DiGraph : Type := Dict.t (Dict.t Z).

Definition edge : Type := (party * party * Z)%type.

(** [nx.DiGraph()] *)
Definition DiGraph_new : DiGraph := [].

Definition add_node (g : DiGraph) (u : party) : DiGraph :=
  if Dict.contains g u then g else Dict.set g u [].

(** [g.add_edge(u, v, weight=w)]: both end points become nodes ([u] first),
    then [_adj[u][v]] is set; an existing edge has its weight replaced. *)
Definition add_edge (g : DiGraph) (u v : party) (w : Z) : DiGraph :=
  let g1 := add_node g u in
  let g2 := add_node g1 v in
  Dict.set g2 u (Dict.set (Dict.get_default g2 u []) v w).

(** [g.has_edge(u, v)] *)
Definition has_edge (g : DiGraph) (u v : party) : bool :=
  match Dict.get g u with
  | Some nbrs => Dict.contains nbrs v
  | None => false
  end.

(** [g[u][v]['weight']] *)
Definition get_weight (g : DiGraph) (u v : party) : outcome Z :=
  match Dict.get g u with
  | Some nbrs =>
      match Dict.get nbrs v with
      | Some w => Returns w
      | None => Raises KeyError
      end
  | None => Raises KeyError
  end.

(** [g[u][v]['weight'] = w] on an existing edge *)
Definition set_weight (g : DiGraph) (u v : party) (w : Z) : outcome DiGraph :=
  match Dict.get g u with
  | Some nbrs =>
      if Dict.contains nbrs v then Returns (Dict.set g u (Dict.set nbrs v w))
      else Raises KeyError
  | None => Raises KeyError
  end.

(** [g.edges(data=True)]: nodes in insertion order, and for each node its
    successors in insertion order. *)
Definition edges (g : DiGraph) : list edge :=
  flat_map (fun '(u, nbrs) => map (fun '(v, w) => (u, v, w)) nbrs) g.

(** The ledger as a mapping from ordered pairs to accumulated amounts. *)
Definition edge_weight (g : DiGraph) (u v : party) : option Z :=
  match Dict.get g u with
  | Some nbrs => Dict.get nbrs v
  | None => None
  end.

(** ** [CashFlowGraph.add_transaction] *)

Definition add_transaction (self : DiGraph) (payer payee : party) (amount : Z)
  : outcome DiGraph :=
  if has_edge self payer payee then
    w <- get_weight self payer payee ;;
    set_weight self payer payee (w + amount)
  else
    Returns (add_edge self payer payee amount).

Definition obligation : Type := (party * party * Z)%type.

(** The callers' loop [for p, q, a in transactions: graph.add_transaction(p, q, a)]. *)
Fixpoint add_transactions (self : DiGraph) (txns : list obligation) : outcome DiGraph :=
  match txns with
  | [] => Returns self
  | (p, q, a) :: rest =>
      self' <- add_transaction self p q a ;;
      add_transactions self' rest
  end.

(** [graph = CashFlowGraph()] followed by the loop above. *)
Definition aggregate (txns : list obligation) : outcome DiGraph :=
  add_transactions DiGraph_new txns.

(** ** [CashFlowGraph.optimize_transactions_floyd_warshall] *)

Definition balance_t : Type := Dict.t Z.

(** Lines 18-22: one pass over the edges. *)
Definition balance_step (balance : balance_t) (e : edge) : balance_t :=
  let '(u, v, amount) := e in
  let balance1 := Dict.set balance u (Dict.get_default balance u 0 - amount) in
  Dict.set balance1 v (Dict.get_default balance1 v 0 + amount).

Definition derive_balances (g : DiGraph) : balance_t :=
  fold_left balance_step (edges g) [].

Definition entry : Type := (party * Z)%type.

(** Lines 24-30: debtors (with the amount owed made positive) and creditors,
    each in the iteration order of [balance]. *)
Definition partition_step (acc : list entry * list entry) (item : party * Z)
  : list entry * list entry :=
  let '(debtors, creditors) := acc in
  let '(person, amt) := item in
  if amt <? 0 then (debtors ++ [(person, - amt)], creditors)
  else if amt >? 0 then (debtors, creditors ++ [(person, amt)])
  else (debtors, creditors).

Definition partition_balance (balance : balance_t) : list entry * list entry :=
  fold_left partition_step balance ([], []).

(** Lines 32-50: the variables of the matching loop. *)
Record state : Type := mkState {
  debtors : list entry;
  creditors : list entry;
  i : nat;
  j : nat;
  graph : DiGraph
}.

Definition loop_guard (st : state) : bool :=
  (i st <? length (debtors st))%nat && (j st <? length (creditors st))%nat.

Definition loop_body (st : state) : outcome state :=
  '(debtor, debt_amt) <- getitem (debtors st) (i st) ;;
  '(creditor, credit_amt) <- getitem (creditors st) (j st) ;;
  let trans_amt := Z.min debt_amt credit_amt in
  let graph' := add_edge (graph st) debtor creditor trans_amt in
  let debt_amt := debt_amt - trans_amt in
  let credit_amt := credit_amt - trans_amt in
  '(debtors', i') <-
    (if debt_amt =? 0 then Returns (debtors st, S (i st))
     else ds <- setitem (debtors st) (i st) (debtor, debt_amt) ;;
          Returns (ds, i st)) ;;
  '(creditors', j') <-
    (if credit_amt =? 0 then Returns (creditors st, S (j st))
     else cs <- setitem (creditors st) (j st) (creditor, credit_amt) ;;
          Returns (cs, j st)) ;;
  Returns (mkState debtors' creditors' i' j' graph').

Fixpoint while_loop (fuel : nat) (st : state) : outcome state :=
  if loop_guard st then
    match fuel with
    | O => OutOfFuel
    | S fuel' => st' <- loop_body st ;; while_loop fuel' st'
    end
  else Returns st.

Definition init_state (balance : balance_t) : state :=
  let '(debtors, creditors) := partition_balance balance in
  mkState debtors creditors 0 0 DiGraph_new.

(** Lines 24-50 on a given balance dictionary; the loop advances a cursor in
    every iteration, so the two queue lengths bound the iterations. *)
Definition settle (balance : balance_t) : outcome state :=
  let st := init_state balance in
  while_loop (length (debtors st) + length (creditors st)) st.

Definition optimize_transactions_floyd_warshall (self : DiGraph) : outcome DiGraph :=
  st <- settle (derive_balances self) ;;
  Returns (graph st).

(** The pipeline of the callers: aggregate, optimize, read the edges. *)
Definition compute_balances (txns : list obligation) : outcome balance_t :=
  g <- aggregate txns ;;
  Returns (derive_balances g).

Definition settlement (txns : list obligation) : outcome (list edge) :=
  g <- aggregate txns ;;
  g' <- optimize_transactions_floyd_warshall g ;;
  Returns (edges g').

(** ** Sums and flows used to state the properties *)

Definition zsum (l : list Z) : Z := fold_right Z.add 0 l.

Definition sum_values (balance : balance_t) : Z := zsum (map snd balance).

Definition balance_of (balance : balance_t) (p : party) : Z :=
  Dict.get_default balance p 0.

(** Sum of the amounts directed to [p], and directed away from [p]. *)
Definition inflow (es : list edge) (p : party) : Z :=
  zsum (map (fun '(_, v, w) => if String.eqb v p then w else 0) es).

Definition outflow (es : list edge) (p : party) : Z :=
  zsum (map (fun '(u, _, w) => if String.eqb u p then w else 0) es).

Definition net_flow (es : list edge) (p : party) : Z :=
  inflow es p - outflow es p.

Definition amount_of (o : obligation) : Z := snd o.

Definition positive_amounts (txns : list obligation) : Prop :=
  Forall (fun o => 0 < amount_of o) txns.

(** ** Vocabulary of the statements and of the proofs *)

(** The write [_adj[u][v] = w] shared by [add_edge] and the weight update. *)
Definition put_edge (g : DiGraph) (u v : party) (w : Z) : DiGraph :=
  Dict.set g u (Dict.set (Dict.get_default g u []) v w).

Definition edges_of_node (u : party) (nbrs : Dict.t Z) : list edge :=
  map (fun '(v, w) => (u, v, w)) nbrs.

(** The graph after [add_transaction self payer payee amount]. *)
Definition recorded (self : DiGraph) (payer payee : party) (amount : Z) : DiGraph :=
  match edge_weight self payer payee with
  | Some w => put_edge self payer payee (w + amount)
  | None => add_edge self payer payee amount
  end.

Definition recorded_all (self : DiGraph) (txns : list obligation) : DiGraph :=
  fold_left (fun g '(p, q, a) => recorded g p q a) txns self.

Definition credit (x : party) (e : edge) : Z :=
  let '(_, v, w) := e in if String.eqb v x then w else 0.

Definition debit (x : party) (e : edge) : Z :=
  let '(u, _, w) := e in if String.eqb u x then w else 0.

Definition same_pair (u v : party) (o : obligation) : bool :=
  let '(p, q, _) := o in String.eqb p u && String.eqb q v.

(** The amounts of the obligations from [u] to [v], in input order. *)
Definition amounts_for (u v : party) (txns : list obligation) : list Z :=
  map amount_of (filter (same_pair u v) txns).

(** What a ledger cell holds after adding the amounts [l] to it. *)
Definition accumulate (cell : option Z) (l : list Z) : option Z :=
  match l with
  | [] => cell
  | _ :: _ => Some (match cell with Some w => w | None => 0 end + zsum l)
  end.

(** The queue and the cursor after the remaining amount [a'] of the cell under
    the cursor is known: lines 42-45 (and 47-50). *)
Definition queue_after (l : list entry) (n : nat) (k : party) (a' : Z) : list entry :=
  if a' =? 0 then l else list_update l n (k, a').

Definition cursor_after (n : nat) (a' : Z) : nat :=
  if a' =? 0 then S n else n.

(** The state after one iteration that reads [(dk, da)] and [(ck, ca)]. *)
Definition next_state (st : state) (dk : party) (da : Z) (ck : party) (ca : Z) : state :=
  let m := Z.min da ca in
  mkState (queue_after (debtors st) (i st) dk (da - m))
          (queue_after (creditors st) (j st) ck (ca - m))
          (cursor_after (i st) (da - m))
          (cursor_after (j st) (ca - m))
          (add_edge (graph st) dk ck m).

(** What is left to do: it strictly decreases, since the minimum of the two
    amounts retires at least one cell. *)
Definition remaining (st : state) : nat :=
  (List.length (debtors st) - i st) + (List.length (creditors st) - j st).

Definition amount_in (l : list entry) (x : party) : Z :=
  zsum (map (fun '(k, a) => if String.eqb k x then a else 0) l).

Definition total (l : list entry) : Z := zsum (map snd l).

Definition all_positive (l : list entry) : Prop := Forall (fun e => 0 < snd e) l.

(** The cells not yet retired, and the parties already retired. *)
Definition rest_debtors (st : state) : list entry := skipn (i st) (debtors st).
Definition rest_creditors (st : state) : list entry := skipn (j st) (creditors st).
Definition done_debtors (st : state) : list party := firstn (i st) (map fst (debtors st)).
Definition done_creditors (st : state) : list party := firstn (j st) (map fst (creditors st)).

Definition cell (k : party) (a' : Z) : list entry :=
  if a' =? 0 then [] else [(k, a')].

(** The invariant of the matching loop started on the queues [ds0], [cs0]. *)
Record Inv (ds0 cs0 : list entry) (st : state) : Prop := mkInv {
  inv_keys_d : map fst (debtors st) = map fst ds0;
  inv_keys_c : map fst (creditors st) = map fst cs0;
  inv_bound_i : (i st <= List.length (debtors st))%nat;
  inv_bound_j : (j st <= List.length (creditors st))%nat;
  inv_pos_d : all_positive (rest_debtors st);
  inv_pos_c : all_positive (rest_creditors st);
  inv_total :
    total (rest_debtors st) - total (rest_creditors st) = total ds0 - total cs0;
  inv_flow : forall x,
    net_flow (edges (graph st)) x
      + amount_in (rest_creditors st) x - amount_in (rest_debtors st) x
    = amount_in cs0 x - amount_in ds0 x;
  inv_done : forall u v w,
    In (u, v, w) (edges (graph st)) ->
    In u (done_debtors st) \/ In v (done_creditors st);
  inv_edges : forall u v w,
    In (u, v, w) (edges (graph st)) ->
    In u (map fst ds0) /\ In v (map fst cs0) /\ 0 < w;
  inv_count :
    total ds0 = total cs0 ->
    edges (graph st) = [] \/
    (List.length (edges (graph st)) + (if loop_guard st then 0 else 1)
     <= i st + j st)%nat
}.

Definition is_debtor (item : party * Z) : bool := snd item <? 0.
Definition is_creditor (item : party * Z) : bool := snd item >? 0.

Definition debtors_of (balance : balance_t) : list entry :=
  map (fun item => (fst item, - snd item)) (filter is_debtor balance).

Definition creditors_of (balance : balance_t) : list entry :=
  filter is_creditor balance.

(** The end points of a list of edges (or obligations), payer before payee. *)
Definition endpoints (es : list edge) : list party :=
  flat_map (fun '(u, v, _) => [u; v]) es.

Definition mem (x : party) (l : list party) : bool := existsb (String.eqb x) l.

(** The distinct elements of [l] outside [seen], each at its first occurrence. *)
Fixpoint first_appearance_from (seen l : list party) : list party :=
  match l with
  | [] => []
  | x :: rest =>
      if mem x seen then first_appearance_from seen rest
      else x :: first_appearance_from (seen ++ [x]) rest
  end.

Definition first_appearance (l : list party) : list party :=
  first_appearance_from [] l.

(** The keys of a dictionary after [d[k] = v]. *)
Definition inserted (l : list party) (k : party) : list party :=
  if mem k l then l else l ++ [k].

(** [g[u]]: the successors of [u], none for a party that is not a node. *)
Definition successors (g : DiGraph) (u : party) : Dict.t Z :=
  Dict.get_default g u [].

(** The payees of the obligations paid by [u], in input order. *)
Definition payees_of (u : party) (txns : list obligation) : list party :=
  map (fun o => snd (fst o)) (filter (fun o => String.eqb (fst (fst o)) u) txns).

(** Every successor is itself a node. *)
Definition closed (g : DiGraph) : Prop :=
  forall u v w, In (u, v, w) (edges g) -> In v (Dict.keys g).

(** ** Vocabulary of the further properties *)

(** The ordered pair an edge (or an obligation) is about. *)
Definition pair_of (e : edge) : party * party := fst e.

Definition successors_distinct (g : DiGraph) : Prop :=
  forall u nbrs, In (u, nbrs) g -> NoDup (Dict.keys nbrs).

(** What [networkx] guarantees of a graph: distinct nodes, distinct
    successors under each node, and every successor is a node. *)
Definition well_formed (g : DiGraph) : Prop :=
  NoDup (Dict.keys g) /\ successors_distinct g /\ closed g.

(** The total amount of a list of edges. *)
Definition weight_sum (es : list edge) : Z := zsum (map snd es).

(** Whether a party is an end point of some edge of the list. *)
Definition occurs (p : party) (es : list edge) : Prop := In p (endpoints es).

Definition source_of (e : edge) : party := fst (fst e).
Definition target_of (e : edge) : party := snd (fst e).

(** Nodes without successors. *)
Definition all_empty (g : DiGraph) : Prop := Forall (fun n => snd n = []) g.

(** [u] is a node, and no node after it has a successor: the edges of [u]
    come last in the enumeration. *)
Definition last_source (g : DiGraph) (u : party) : Prop :=
  exists g1 nbrs g2,
    g = g1 ++ (u, nbrs) :: g2 /\ Dict.get g1 u = None /\ all_empty g2.

(** What the matching loop keeps invariant besides [Inv], when it is started
    on the queues [ds0], [cs0]: the amount moved so far, the nodes of the new
    graph, and the order in which payers and payees enter it. *)
Record Inv2 (ds0 cs0 : list entry) (st : state) : Prop := mkInv2 {
  inv2_weight :
    weight_sum (edges (graph st)) + total (rest_debtors st) = total ds0;
  inv2_nodes : forall x,
    In x (Dict.keys (graph st)) <-> In x (endpoints (edges (graph st)));
  inv2_keys : forall x,
    In x (Dict.keys (graph st)) ->
    In x (firstn (S (i st)) (map fst ds0)) \/ In x (map fst cs0);
  inv2_last : forall dk,
    nth_error (map fst ds0) (i st) = Some dk ->
    Dict.get (graph st) dk = None \/ last_source (graph st) dk;
  inv2_sources :
    first_appearance (map source_of (edges (graph st))) = firstn (i st) (map fst ds0) \/
    first_appearance (map source_of (edges (graph st))) = firstn (S (i st)) (map fst ds0);
  inv2_targets :
    first_appearance (map target_of (edges (graph st))) = firstn (j st) (map fst cs0) \/
    first_appearance (map target_of (edges (graph st))) = firstn (S (j st)) (map fst cs0)
}.

(** The transfers handed to [add_edge] by the iterations of the matching
    loop, in order: the loop of lines 34-50 with its line 39 logged. *)
Fixpoint emitted (fuel : nat) (st : state) : list edge :=
  if loop_guard st then
    match fuel with
    | O => []
    | S fuel' =>
        match nth_error (debtors st) (i st), nth_error (creditors st) (j st),
              loop_body st with
        | Some (debtor, debt_amt), Some (creditor, credit_amt), Returns st' =>
            (debtor, creditor, Z.min debt_amt credit_amt) :: emitted fuel' st'
        | _, _, _ => []
        end
    end
  else [].

(** ** [main], manual input: lines 84-86

    [if p and q and a: graph.add_transaction(p, q, a)]: a row is kept when
    both names are non-empty strings and the amount is not zero. *)
Definition truthy_str (s : string) : bool := negb (String.eqb s "").
Definition truthy_int (a : Z) : bool := negb (a =? 0).

Definition row_kept (o : obligation) : bool :=
  let '(p, q, a) := o in truthy_str p && truthy_str q && truthy_int a.

Fixpoint add_manual_rows (self : DiGraph) (txns : list obligation) : outcome DiGraph :=
  match txns with
  | [] => Returns self
  | (p, q, a) :: rest =>
      if truthy_str p && truthy_str q && truthy_int a then
        self' <- add_transaction self p q a ;;
        add_manual_rows self' rest
      else add_manual_rows self rest
  end.

(** [graph = CashFlowGraph()] followed by the loop of lines 84-86. *)
Definition manual_input (txns : list obligation) : outcome DiGraph :=
  add_manual_rows DiGraph_new txns.

(** * Properties *)

(** ** Dictionaries *)

Section DictFacts.
Context {V : Type}.
Implicit Types (d : Dict.t V) (k : party) (v : V).

Lemma get_set_same d k v : Dict.get (Dict.set d k v) k = Some v.
Proof.
  induction d as [|[k' v'] d IH]; simpl.
  - now rewrite String.eqb_refl.
  - destruct (String.eqb k' k) eqn:E; simpl; rewrite E; auto.
Qed.

Lemma get_set_other d k k' v :
  k <> k' -> Dict.get (Dict.set d k v) k' = Dict.get d k'.
Proof.
  intros Hne. induction d as [|[k0 v0] d IH]; simpl.
  - apply String.eqb_neq in Hne. now rewrite Hne.
  - destruct (String.eqb_spec k0 k) as [->|E]; simpl.
    + apply String.eqb_neq in Hne. now rewrite Hne.
    + now rewrite IH.
Qed.

Lemma get_none_not_in d k : Dict.get d k = None -> ~ In k (Dict.keys d).
Proof.
  induction d as [|[k' v'] d IH]; simpl; intros H; [tauto|].
  destruct (String.eqb_spec k' k); [discriminate|].
  intros [->|Hin]; [congruence | now apply IH].
Qed.

Lemma get_some_in d k v : Dict.get d k = Some v -> In (k, v) d.
Proof.
  induction d as [|[k' v'] d IH]; simpl; intros H; [discriminate|].
  destruct (String.eqb_spec k' k).
  - injection H as <-. subst. now left.
  - right. now apply IH.
Qed.

Lemma in_get_nodup d k v :
  NoDup (Dict.keys d) -> In (k, v) d -> Dict.get d k = Some v.
Proof.
  induction d as [|[k' v'] d IH]; simpl; intros Hnd Hin; [tauto|].
  inversion Hnd as [|? ? Hnotin Hnd']; subst.
  destruct Hin as [Heq|Hin].
  - injection Heq as -> ->. now rewrite String.eqb_refl.
  - destruct (String.eqb_spec k' k) as [->|Hne].
    + exfalso. apply Hnotin. change k with (fst (k, v)). now apply in_map.
    + now apply IH.
Qed.

(** Writing to a present key changes one cell in place. *)
Lemma set_present d k v0 :
  Dict.get d k = Some v0 ->
  exists d1 d2, d = d1 ++ (k, v0) :: d2 /\
                forall v, Dict.set d k v = d1 ++ (k, v) :: d2.
Proof.
  induction d as [|[k' v'] d IH]; simpl; intros H; [discriminate|].
  destruct (String.eqb_spec k' k) as [->|Hne].
  - injection H as ->. exists [], d. split; [reflexivity|].
    intros v. reflexivity.
  - destruct (IH H) as (d1 & d2 & -> & Hset).
    exists ((k', v') :: d1), d2. split; [reflexivity|].
    intros v. simpl. now rewrite Hset.
Qed.

(** Writing to an absent key appends it. *)
Lemma set_absent d k v : Dict.get d k = None -> Dict.set d k v = d ++ [(k, v)].
Proof.
  induction d as [|[k' v'] d IH]; simpl; intros H; [reflexivity|].
  destruct (String.eqb k' k); [discriminate|]. now rewrite IH.
Qed.

Lemma keys_set_present d k v0 v :
  Dict.get d k = Some v0 -> Dict.keys (Dict.set d k v) = Dict.keys d.
Proof.
  intros H. destruct (set_present _ _ _ H) as (d1 & d2 & -> & Hset).
  rewrite Hset. unfold Dict.keys. now rewrite !map_app.
Qed.

Lemma keys_set_absent d k v :
  Dict.get d k = None -> Dict.keys (Dict.set d k v) = Dict.keys d ++ [k].
Proof.
  intros H. rewrite set_absent by assumption.
  unfold Dict.keys. now rewrite map_app.
Qed.

Lemma nodup_keys_set d k v :
  NoDup (Dict.keys d) -> NoDup (Dict.keys (Dict.set d k v)).
Proof.
  intros Hnd. destruct (Dict.get d k) as [v0|] eqn:E.
  - now rewrite (keys_set_present _ _ _ v E).
  - rewrite keys_set_absent by assumption.
    apply NoDup_app; [assumption | constructor; [tauto|constructor]|].
    intros x Hx [<-|[]]. now apply (get_none_not_in _ _ E).
Qed.
End DictFacts.

Lemma zsum_app l1 l2 : zsum (l1 ++ l2) = zsum l1 + zsum l2.
Proof. induction l1 as [|x l1 IH]; simpl; lia. Qed.

Lemma zsum_perm l1 l2 : Permutation l1 l2 -> zsum l1 = zsum l2.
Proof. induction 1; simpl; lia. Qed.

Lemma sum_values_set (b : balance_t) k v :
  sum_values (Dict.set b k v) = sum_values b - balance_of b k + v.
Proof.
  unfold sum_values, balance_of, Dict.get_default.
  induction b as [|[k' v'] b IH]; simpl; [lia|].
  destruct (String.eqb k' k); simpl; lia.
Qed.

Lemma balance_of_set_same (b : balance_t) k v : balance_of (Dict.set b k v) k = v.
Proof. unfold balance_of, Dict.get_default. now rewrite get_set_same. Qed.

Lemma balance_of_set_other (b : balance_t) k k' v :
  k <> k' -> balance_of (Dict.set b k v) k' = balance_of b k'.
Proof. intros H. unfold balance_of, Dict.get_default. now rewrite get_set_other. Qed.

(** ** The graph operations *)

Lemma edges_app g1 g2 : edges (g1 ++ g2) = edges g1 ++ edges g2.
Proof. unfold edges. apply flat_map_app. Qed.

Lemma edges_cons u nbrs g : edges ((u, nbrs) :: g) = edges_of_node u nbrs ++ edges g.
Proof. reflexivity. Qed.

Lemma edges_of_node_app u n1 n2 :
  edges_of_node u (n1 ++ n2) = edges_of_node u n1 ++ edges_of_node u n2.
Proof. unfold edges_of_node. apply map_app. Qed.

Lemma add_node_cases g x :
  (Dict.get g x <> None /\ add_node g x = g) \/
  (Dict.get g x = None /\ add_node g x = g ++ [(x, [])]).
Proof.
  unfold add_node, Dict.contains.
  destruct (Dict.get g x) eqn:E.
  - left. split; [discriminate | reflexivity].
  - right. split; [reflexivity | now apply set_absent].
Qed.

Lemma edges_add_node g x : edges (add_node g x) = edges g.
Proof.
  destruct (add_node_cases g x) as [[_ ->]|[_ ->]]; [reflexivity|].
  rewrite edges_app. simpl. now rewrite app_nil_r.
Qed.

Lemma get_app_present {V : Type} (d1 d2 : Dict.t V) k v :
  Dict.get d1 k = Some v -> Dict.get (d1 ++ d2) k = Some v.
Proof.
  induction d1 as [|[k' v'] d1 IH]; simpl; [discriminate|].
  destruct (String.eqb k' k); auto.
Qed.

Lemma get_app_absent {V : Type} (d1 d2 : Dict.t V) k :
  Dict.get d1 k = None -> Dict.get (d1 ++ d2) k = Dict.get d2 k.
Proof.
  induction d1 as [|[k' v'] d1 IH]; simpl; [reflexivity|].
  destruct (String.eqb k' k); [discriminate | auto].
Qed.

Lemma edge_weight_add_node g x u v :
  edge_weight (add_node g x) u v = edge_weight g u v.
Proof.
  destruct (add_node_cases g x) as [[_ ->]|[Hx ->]]; [reflexivity|].
  unfold edge_weight.
  destruct (Dict.get g u) as [nbrs|] eqn:E.
  - now rewrite (get_app_present _ _ _ _ E).
  - rewrite get_app_absent by assumption. simpl.
    destruct (String.eqb x u); reflexivity.
Qed.

Lemma add_edge_put g u v w :
  add_edge g u v w = put_edge (add_node (add_node g u) v) u v w.
Proof. reflexivity. Qed.

Lemma edge_weight_put_edge g u v w u' v' :
  edge_weight (put_edge g u v w) u' v' =
  if String.eqb u u' && String.eqb v v' then Some w else edge_weight g u' v'.
Proof.
  unfold edge_weight, put_edge.
  destruct (String.eqb_spec u u') as [<-|Hu]; simpl.
  - rewrite get_set_same.
    destruct (String.eqb_spec v v') as [<-|Hv].
    + apply get_set_same.
    + rewrite get_set_other by assumption.
      unfold Dict.get_default. destruct (Dict.get g u); reflexivity.
  - now rewrite get_set_other.
Qed.

Lemma edge_weight_add_edge g u v w u' v' :
  edge_weight (add_edge g u v w) u' v' =
  if String.eqb u u' && String.eqb v v' then Some w else edge_weight g u' v'.
Proof.
  rewrite add_edge_put, edge_weight_put_edge, !edge_weight_add_node.
  reflexivity.
Qed.

(** A new edge is one more element of the enumeration. *)
Lemma edges_put_edge_absent g u v w :
  edge_weight g u v = None ->
  Permutation (edges (put_edge g u v w)) ((u, v, w) :: edges g).
Proof.
  unfold edge_weight, put_edge, Dict.get_default. intros H.
  destruct (Dict.get g u) as [nbrs|] eqn:E.
  - destruct (set_present _ _ _ E) as (g1 & g2 & -> & Hset).
    rewrite Hset, !edges_app, !edges_cons.
    rewrite (set_absent nbrs v w H), edges_of_node_app. simpl.
    rewrite <- !app_assoc. simpl.
    symmetry. rewrite !app_assoc. apply Permutation_middle.
  - rewrite set_absent by assumption. rewrite edges_app. simpl.
    symmetry. apply Permutation_cons_append.
Qed.

(** Rewriting the weight of an existing edge changes that element only. *)
Lemma edges_put_edge_present g u v w w0 :
  edge_weight g u v = Some w0 ->
  exists es, Permutation (edges g) ((u, v, w0) :: es) /\
             Permutation (edges (put_edge g u v w)) ((u, v, w) :: es).
Proof.
  unfold edge_weight, put_edge, Dict.get_default. intros H.
  destruct (Dict.get g u) as [nbrs|] eqn:E; [|discriminate].
  destruct (set_present _ _ _ E) as (g1 & g2 & -> & Hset).
  destruct (set_present _ _ _ H) as (n1 & n2 & -> & Hset').
  rewrite Hset, Hset', !edges_app, !edges_cons, !edges_of_node_app. simpl.
  exists ((edges g1 ++ edges_of_node u n1) ++ (edges_of_node u n2 ++ edges g2)).
  split; symmetry.
  - replace (edges g1 ++ (edges_of_node u n1 ++ (u, v, w0) :: edges_of_node u n2) ++ edges g2)
      with ((edges g1 ++ edges_of_node u n1) ++ (u, v, w0) :: (edges_of_node u n2 ++ edges g2))
      by (now rewrite <- !app_assoc).
    apply Permutation_middle.
  - replace (edges g1 ++ (edges_of_node u n1 ++ (u, v, w) :: edges_of_node u n2) ++ edges g2)
      with ((edges g1 ++ edges_of_node u n1) ++ (u, v, w) :: (edges_of_node u n2 ++ edges g2))
      by (now rewrite <- !app_assoc).
    apply Permutation_middle.
Qed.

Lemma has_edge_weight g u v :
  has_edge g u v = match edge_weight g u v with Some _ => true | None => false end.
Proof.
  unfold has_edge, edge_weight, Dict.contains.
  destruct (Dict.get g u); reflexivity.
Qed.

(** ** [add_transaction] never raises *)

Lemma add_transaction_returns self payer payee amount :
  add_transaction self payer payee amount = Returns (recorded self payer payee amount).
Proof.
  unfold add_transaction, recorded. rewrite has_edge_weight.
  unfold edge_weight, get_weight, set_weight, put_edge, Dict.get_default, Dict.contains.
  destruct (Dict.get self payer) as [nbrs|] eqn:E; [|reflexivity].
  destruct (Dict.get nbrs payee) as [w|] eqn:E'; [|reflexivity].
  simpl. rewrite ?E, ?E'. reflexivity.
Qed.

Lemma add_transactions_returns txns : forall self,
  add_transactions self txns = Returns (recorded_all self txns).
Proof.
  induction txns as [|[[p q] a] txns IH]; intros self; simpl; [reflexivity|].
  rewrite add_transaction_returns. simpl. apply IH.
Qed.

Lemma aggregate_returns txns :
  aggregate txns = Returns (recorded_all DiGraph_new txns).
Proof. apply add_transactions_returns. Qed.

Lemma edge_weight_recorded g p q a u v :
  edge_weight (recorded g p q a) u v =
  if String.eqb p u && String.eqb q v
  then Some (match edge_weight g u v with Some w => w + a | None => a end)
  else edge_weight g u v.
Proof.
  unfold recorded.
  destruct (edge_weight g p q) as [w|] eqn:E.
  - rewrite edge_weight_put_edge.
    destruct (String.eqb_spec p u) as [<-|]; [|reflexivity].
    destruct (String.eqb_spec q v) as [<-|]; [|reflexivity].
    simpl. now rewrite E.
  - rewrite edge_weight_add_edge.
    destruct (String.eqb_spec p u) as [<-|]; [|reflexivity].
    destruct (String.eqb_spec q v) as [<-|]; [|reflexivity].
    simpl. now rewrite E.
Qed.

(** ** Flows along edges and derived balances *)

Lemma inflow_cons e es x : inflow (e :: es) x = credit x e + inflow es x.
Proof. destruct e as [[u v] w]. reflexivity. Qed.

Lemma outflow_cons e es x : outflow (e :: es) x = debit x e + outflow es x.
Proof. destruct e as [[u v] w]. reflexivity. Qed.

Lemma net_flow_cons e es x :
  net_flow (e :: es) x = credit x e - debit x e + net_flow es x.
Proof. unfold net_flow. rewrite inflow_cons, outflow_cons. lia. Qed.

Lemma net_flow_nil x : net_flow [] x = 0.
Proof. reflexivity. Qed.

Lemma net_flow_app es1 es2 x :
  net_flow (es1 ++ es2) x = net_flow es1 x + net_flow es2 x.
Proof.
  induction es1 as [|e es1 IH]; cbn [app].
  - rewrite net_flow_nil. lia.
  - rewrite !net_flow_cons, IH. lia.
Qed.

Lemma net_flow_perm es es' x :
  Permutation es es' -> net_flow es x = net_flow es' x.
Proof.
  induction 1 as [| e l l' _ IH | e1 e2 l | l1 l2 l3 _ IH1 _ IH2].
  - reflexivity.
  - rewrite !net_flow_cons, IH. lia.
  - rewrite !net_flow_cons. lia.
  - lia.
Qed.

Lemma net_flow_put_edge_absent g u v w x :
  edge_weight g u v = None ->
  net_flow (edges (put_edge g u v w)) x =
  net_flow (edges g) x + credit x (u, v, w) - debit x (u, v, w).
Proof.
  intros H.
  rewrite (net_flow_perm _ _ x (edges_put_edge_absent g u v w H)), net_flow_cons.
  lia.
Qed.

Lemma net_flow_recorded g p q a x :
  net_flow (edges (recorded g p q a)) x =
  net_flow (edges g) x + credit x (p, q, a) - debit x (p, q, a).
Proof.
  unfold recorded.
  destruct (edge_weight g p q) as [w0|] eqn:E.
  - destruct (edges_put_edge_present g p q (w0 + a) w0 E) as (es & H1 & H2).
    rewrite (net_flow_perm _ _ x H1), (net_flow_perm _ _ x H2), !net_flow_cons.
    cbn [credit debit]. destruct (String.eqb q x), (String.eqb p x); lia.
  - rewrite add_edge_put, net_flow_put_edge_absent.
    + now rewrite !edges_add_node.
    + now rewrite !edge_weight_add_node.
Qed.

Lemma net_flow_recorded_all txns : forall g x,
  net_flow (edges (recorded_all g txns)) x = net_flow (edges g) x + net_flow txns x.
Proof.
  induction txns as [|[[p q] a] txns IH]; intros g x; unfold recorded_all in *;
    cbn [fold_left].
  - rewrite net_flow_nil. lia.
  - rewrite IH, net_flow_recorded, net_flow_cons. lia.
Qed.

Lemma balance_of_step b e x :
  balance_of (balance_step b e) x = balance_of b x + credit x e - debit x e.
Proof.
  destruct e as [[u v] w]. unfold balance_step, balance_of.
  pose proof balance_of_set_same as Hs. pose proof balance_of_set_other as Ho.
  unfold balance_of in Hs, Ho. cbn [credit debit].
  destruct (String.eqb_spec v x) as [->|Hv].
  - rewrite Hs.
    destruct (String.eqb_spec u x) as [->|Hu].
    + rewrite Hs. lia.
    + rewrite Ho by assumption. lia.
  - rewrite Ho by assumption.
    destruct (String.eqb_spec u x) as [->|Hu].
    + rewrite Hs. lia.
    + rewrite Ho by assumption. lia.
Qed.

Lemma balance_of_fold es : forall b x,
  balance_of (fold_left balance_step es b) x = balance_of b x + net_flow es x.
Proof.
  induction es as [|e es IH]; intros b x; cbn [fold_left].
  - rewrite net_flow_nil. lia.
  - rewrite IH, balance_of_step, net_flow_cons. lia.
Qed.

(** The derived balance of a party is its net flow in the ledger. *)
Lemma balance_of_derive g x :
  balance_of (derive_balances g) x = net_flow (edges g) x.
Proof. unfold derive_balances. now rewrite balance_of_fold. Qed.

Lemma sum_values_step b e : sum_values (balance_step b e) = sum_values b.
Proof.
  destruct e as [[u v] w]. unfold balance_step.
  rewrite !sum_values_set. fold (balance_of b u).
  set (b1 := Dict.set b u (balance_of b u - w)).
  fold (balance_of b1 v). lia.
Qed.

Lemma sum_values_fold es : forall b,
  sum_values (fold_left balance_step es b) = sum_values b.
Proof.
  induction es as [|e es IH]; intros b; simpl; [reflexivity|].
  now rewrite IH, sum_values_step.
Qed.

Lemma sum_values_derive g : sum_values (derive_balances g) = 0.
Proof. unfold derive_balances. now rewrite sum_values_fold. Qed.

Lemma nodup_keys_step b e :
  NoDup (Dict.keys b) -> NoDup (Dict.keys (balance_step b e)).
Proof.
  destruct e as [[u v] w]. unfold balance_step. intros H.
  now apply nodup_keys_set, nodup_keys_set.
Qed.

Lemma nodup_keys_fold es : forall b,
  NoDup (Dict.keys b) -> NoDup (Dict.keys (fold_left balance_step es b)).
Proof.
  induction es as [|e es IH]; intros b H; simpl; [assumption|].
  now apply IH, nodup_keys_step.
Qed.

Lemma nodup_keys_derive g : NoDup (Dict.keys (derive_balances g)).
Proof. apply nodup_keys_fold. constructor. Qed.

(** ** C1: conservation *)

(** C1. For every list of obligations with positive amounts, aggregation
    returns a ledger, and the balances derived from it (each edge of weight
    [w] taking [w] from the payer and giving [w] to the payee) sum to zero. *)
Theorem C1_balances_sum_to_zero (txns : list obligation) :
  positive_amounts txns ->
  exists g, aggregate txns = Returns g /\ sum_values (derive_balances g) = 0.
Proof.
  intros _. exists (recorded_all DiGraph_new txns). split.
  - apply aggregate_returns.
  - apply sum_values_derive.
Qed.

Lemma C1_balances_sum_to_zero_witness :
  positive_amounts [("A", "B", 40); ("A", "C", 30); ("B", "D", 20); ("C", "D", 50)] /\
  exists g,
    aggregate [("A", "B", 40); ("A", "C", 30); ("B", "D", 20); ("C", "D", 50)] = Returns g /\
    sum_values (derive_balances g) = 0.
Proof.
  assert (H : positive_amounts
                [("A", "B", 40); ("A", "C", 30); ("B", "D", 20); ("C", "D", 50)]).
  { repeat constructor. }
  split; [exact H | exact (C1_balances_sum_to_zero _ H)].
Defined.

(** ** C3: aggregation is additive and independent of the order *)

Lemma edge_weight_recorded_all txns : forall g u v,
  edge_weight (recorded_all g txns) u v =
  accumulate (edge_weight g u v) (amounts_for u v txns).
Proof.
  induction txns as [|[[p q] a] txns IH]; intros g u v; [reflexivity|].
  unfold recorded_all in *. cbn [fold_left]. rewrite IH, edge_weight_recorded.
  unfold amounts_for. cbn [filter same_pair].
  destruct (String.eqb p u && String.eqb q v); [|reflexivity].
  cbn [map amount_of snd].
  destruct (map amount_of (filter (same_pair u v) txns)) as [|b l];
    destruct (edge_weight g u v); simpl; f_equal; lia.
Qed.

Lemma accumulate_perm cell l l' :
  Permutation l l' -> accumulate cell l = accumulate cell l'.
Proof.
  intros H. destruct l as [|a l], l' as [|a' l']; try reflexivity.
  - now apply Permutation_nil_cons in H.
  - symmetry in H. now apply Permutation_nil_cons in H.
  - unfold accumulate. now rewrite (zsum_perm _ _ H).
Qed.

Lemma filter_perm {A : Type} (f : A -> bool) l l' :
  Permutation l l' -> Permutation (filter f l) (filter f l').
Proof.
  induction 1 as [| x l l' _ IH | x y l | l1 l2 l3 _ IH1 _ IH2]; simpl.
  - constructor.
  - destruct (f x); [now constructor | assumption].
  - destruct (f x), (f y); try reflexivity. apply perm_swap.
  - now transitivity (filter f l2).
Qed.

Lemma amounts_for_perm u v l l' :
  Permutation l l' -> Permutation (amounts_for u v l) (amounts_for u v l').
Proof. intros H. unfold amounts_for. now apply Permutation_map, filter_perm. Qed.

Lemma add_edge_new u v a :
  add_edge DiGraph_new u v a =
  if String.eqb u v then [(u, [(v, a)])] else [(u, [(v, a)]); (v, [])].
Proof.
  unfold add_edge, add_node, DiGraph_new, Dict.contains, Dict.get_default.
  cbn [Dict.get Dict.set].
  destruct (String.eqb u v) eqn:Euv; cbn [Dict.get Dict.set];
    rewrite ?String.eqb_refl, ?Euv; cbn [Dict.get Dict.set];
    rewrite ?String.eqb_refl, ?Euv; cbn [Dict.get Dict.set];
    rewrite ?String.eqb_refl, ?Euv; reflexivity.
Qed.

Lemma recorded_twice_new u v a b :
  recorded (recorded DiGraph_new u v a) u v b = recorded DiGraph_new u v (a + b).
Proof.
  change (recorded DiGraph_new u v a) with (add_edge DiGraph_new u v a).
  change (recorded DiGraph_new u v (a + b)) with (add_edge DiGraph_new u v (a + b)).
  unfold recorded. rewrite edge_weight_add_edge, !String.eqb_refl. cbn [andb].
  rewrite !add_edge_new. unfold put_edge, Dict.get_default.
  destruct (String.eqb u v) eqn:Euv; cbn [Dict.get Dict.set];
    rewrite ?String.eqb_refl; cbn [Dict.get Dict.set];
    rewrite ?String.eqb_refl; reflexivity.
Qed.

(** C3. Two obligations between the same ordered pair aggregate to the one
    edge carrying their sum, exactly as the single summed obligation does;
    and the ledger mapping from (payer, payee) pairs to accumulated amounts
    is the same for every permutation of the obligation list. *)
Theorem C3_aggregation_additive_order_independent :
  (forall (u v : party) (a b : Z),
      aggregate [(u, v, a); (u, v, b)] = aggregate [(u, v, a + b)] /\
      exists g, aggregate [(u, v, a); (u, v, b)] = Returns g /\
                edges g = [(u, v, a + b)]) /\
  (forall txns txns' : list obligation,
      Permutation txns txns' ->
      exists g g',
        aggregate txns = Returns g /\ aggregate txns' = Returns g' /\
        forall u v, edge_weight g u v = edge_weight g' u v).
Proof.
  split.
  - intros u v a b. rewrite !aggregate_returns.
    assert (E : recorded_all DiGraph_new [(u, v, a); (u, v, b)] =
                recorded_all DiGraph_new [(u, v, a + b)]).
    { unfold recorded_all. cbn [fold_left]. apply recorded_twice_new. }
    split; [now rewrite E|].
    eexists. split; [reflexivity|]. rewrite E.
    unfold recorded_all. cbn [fold_left].
    change (recorded DiGraph_new u v (a + b)) with (add_edge DiGraph_new u v (a + b)).
    rewrite add_edge_new. destruct (String.eqb u v); reflexivity.
  - intros txns txns' H.
    exists (recorded_all DiGraph_new txns), (recorded_all DiGraph_new txns').
    split; [apply aggregate_returns|]. split; [apply aggregate_returns|].
    intros u v. rewrite !edge_weight_recorded_all.
    now apply accumulate_perm, amounts_for_perm.
Qed.

Lemma C3_aggregation_additive_order_independent_witness :
  Permutation [("A", "B", 10); ("C", "D", 7); ("A", "B", 5)]
              [("A", "B", 5); ("A", "B", 10); ("C", "D", 7)] /\
  exists g g',
    aggregate [("A", "B", 10); ("C", "D", 7); ("A", "B", 5)] = Returns g /\
    aggregate [("A", "B", 5); ("A", "B", 10); ("C", "D", 7)] = Returns g' /\
    forall u v, edge_weight g u v = edge_weight g' u v.
Proof.
  assert (H : Permutation [("A", "B", 10); ("C", "D", 7); ("A", "B", 5)]
                          [("A", "B", 5); ("A", "B", 10); ("C", "D", 7)]).
  { symmetry.
    exact (Permutation_cons_append [("A", "B", 10); ("C", "D", 7)] ("A", "B", 5)). }
  split; [exact H|].
  exact (proj2 C3_aggregation_additive_order_independent _ _ H).
Defined.

(** ** C4: amounts are not validated *)

(** C4, as stated, fails: the obligation [("A", "B", 0)] is not rejected with
    [InvalidAmount]; [add_transaction] returns and the ledger records the
    edge with weight 0 (and likewise a negative amount). *)
Lemma C4_nonpositive_amount_is_recorded :
  0 <= 0 /\
  add_transaction DiGraph_new "A" "B" 0 = Returns [("A", [("B", 0)]); ("B", [])] /\
  add_transaction DiGraph_new "A" "B" 0 <> Raises InvalidAmount /\
  (exists g, aggregate [("A", "B", -5)] = Returns g /\
             edge_weight g "A" "B" = Some (-5)).
Proof.
  split; [lia|]. split; [reflexivity|]. split; [discriminate|].
  eexists. split; reflexivity.
Qed.

(** C4, amended. [add_transaction] does not validate the amount: an
    obligation whose amount is zero or negative is accepted like any other,
    the call returns, and the (payer, payee) edge of the ledger carries the
    previous weight plus the amount (the amount itself for a new edge). *)
Theorem C4_nonpositive_amount_accepted
    (self : DiGraph) (payer payee : party) (amount : Z) :
  amount <= 0 ->
  exists g,
    add_transaction self payer payee amount = Returns g /\
    edge_weight g payer payee =
      Some (match edge_weight self payer payee with
            | Some w => w + amount
            | None => amount
            end).
Proof.
  intros _. exists (recorded self payer payee amount). split.
  - apply add_transaction_returns.
  - rewrite edge_weight_recorded, !String.eqb_refl. reflexivity.
Qed.

Lemma C4_nonpositive_amount_accepted_witness :
  -5 <= 0 /\
  exists g,
    add_transaction [("A", [("B", 3)]); ("B", [])] "A" "B" (-5) = Returns g /\
    edge_weight g "A" "B" =
      Some (match edge_weight [("A", [("B", 3)]); ("B", [])] "A" "B" with
            | Some w => w + -5
            | None => -5
            end).
Proof.
  assert (H : -5 <= 0) by lia.
  split; [exact H|].
  exact (C4_nonpositive_amount_accepted [("A", [("B", 3)]); ("B", [])] "A" "B" (-5) H).
Defined.

(** ** C8: the two worked scenarios *)

(** C8. Obligations [(A,B,50),(B,C,30),(A,C,20)] give balances
    [{A:-70, B:20, C:50}] and the transfers [(A,B,20),(A,C,50)] in that
    order; the cycle [(A,B,100),(B,C,100),(C,A,100)] gives all-zero balances
    and no transfer. *)
Theorem C8_scenarios :
  compute_balances [("A", "B", 50); ("B", "C", 30); ("A", "C", 20)]
    = Returns [("A", -70); ("B", 20); ("C", 50)] /\
  settlement [("A", "B", 50); ("B", "C", 30); ("A", "C", 20)]
    = Returns [("A", "B", 20); ("A", "C", 50)] /\
  compute_balances [("A", "B", 100); ("B", "C", 100); ("C", "A", 100)]
    = Returns [("A", 0); ("B", 0); ("C", 0)] /\
  settlement [("A", "B", 100); ("B", "C", 100); ("C", "A", 100)]
    = Returns [].
Proof. repeat split; vm_compute; reflexivity. Qed.

(** ** The matching loop *)

(** *** A queue cell is either retired (cursor advances) or rewritten *)

Lemma cell_split (l : list entry) n x :
  nth_error l n = Some x -> l = firstn n l ++ x :: skipn (S n) l.
Proof.
  revert n. induction l as [|y t IH]; intros [|m] H; simpl in *; try discriminate.
  - now injection H as ->.
  - now rewrite <- IH.
Qed.

Lemma cell_update (l : list entry) n x y :
  nth_error l n = Some x ->
  list_update l n y = firstn n l ++ y :: skipn (S n) l.
Proof.
  revert n. induction l as [|z t IH]; intros [|m] H; simpl in *; try discriminate.
  - reflexivity.
  - now rewrite <- IH.
Qed.

Lemma cell_cursor_bound (l : list entry) n x :
  nth_error l n = Some x -> (n < List.length l)%nat.
Proof. intros H. apply nth_error_Some. congruence. Qed.

Lemma cell_length_firstn (l : list entry) n x :
  nth_error l n = Some x -> List.length (firstn n l) = n.
Proof.
  intros H. apply firstn_length_le, Nat.lt_le_incl. eapply cell_cursor_bound, H.
Qed.

Lemma skipn_middle {A : Type} (l1 l2 : list A) : skipn (List.length l1) (l1 ++ l2) = l2.
Proof. induction l1; simpl; auto. Qed.

Lemma firstn_middle {A : Type} (l1 l2 : list A) : firstn (List.length l1) (l1 ++ l2) = l1.
Proof. induction l1; simpl; [reflexivity | now f_equal]. Qed.

Lemma firstn_middle_S {A : Type} (l1 l2 : list A) x :
  firstn (S (List.length l1)) (l1 ++ x :: l2) = l1 ++ [x].
Proof. induction l1; simpl; [reflexivity | now f_equal]. Qed.

Section QueueCell.
Variables (l : list entry) (n : nat) (k : party) (a a' : Z).
Hypothesis Hnth : nth_error l n = Some (k, a).

Lemma cell_keys : map fst (queue_after l n k a') = map fst l.
Proof using Hnth.
  unfold queue_after. destruct (a' =? 0); [reflexivity|].
  rewrite (cell_update _ _ _ (k, a') Hnth). rewrite (cell_split _ _ _ Hnth) at 3.
  now rewrite !map_app.
Qed.

Lemma cell_length : List.length (queue_after l n k a') = List.length l.
Proof using Hnth.
  transitivity (List.length (map fst (queue_after l n k a'))).
  - symmetry. apply length_map.
  - rewrite cell_keys. apply length_map.
Qed.

Lemma cell_rest_before : skipn n l = (k, a) :: skipn (S n) l.
Proof using Hnth.
  rewrite (cell_split _ _ _ Hnth) at 1.
  rewrite <- (cell_length_firstn _ _ _ Hnth) at 1. apply skipn_middle.
Qed.

Lemma cell_rest_after :
  skipn (cursor_after n a') (queue_after l n k a') =
  (if a' =? 0 then [] else [(k, a')]) ++ skipn (S n) l.
Proof using Hnth.
  unfold queue_after, cursor_after. destruct (a' =? 0); [reflexivity|].
  rewrite (cell_update _ _ _ (k, a') Hnth).
  rewrite <- (cell_length_firstn _ _ _ Hnth) at 1. apply skipn_middle.
Qed.

Lemma cell_done_after :
  firstn (cursor_after n a') (map fst (queue_after l n k a')) =
  firstn n (map fst l) ++ (if a' =? 0 then [k] else []).
Proof using Hnth.
  rewrite cell_keys. unfold cursor_after. destruct (a' =? 0).
  - rewrite firstn_map. rewrite (cell_split _ _ _ Hnth) at 1.
    rewrite <- (cell_length_firstn _ _ _ Hnth) at 1.
    rewrite firstn_middle_S, map_app, firstn_map. reflexivity.
  - now rewrite app_nil_r.
Qed.

Lemma cell_key_in : In k (map fst l).
Proof using Hnth.
  change k with (fst (k, a)). apply in_map. eapply nth_error_In, Hnth.
Qed.

Lemma cell_key_fresh : NoDup (map fst l) -> ~ In k (firstn n (map fst l)).
Proof using Hnth.
  intros Hnd Hin. rewrite (cell_split _ _ _ Hnth), map_app in Hnd. simpl in Hnd.
  apply NoDup_remove_2 in Hnd. apply Hnd, in_or_app. left.
  rewrite firstn_map in Hin. exact Hin.
Qed.
End QueueCell.

(** *** One iteration *)

Lemma loop_body_returns st dk da ck ca :
  nth_error (debtors st) (i st) = Some (dk, da) ->
  nth_error (creditors st) (j st) = Some (ck, ca) ->
  loop_body st = Returns (next_state st dk da ck ca).
Proof.
  intros Hd Hc. unfold loop_body, getitem, setitem. rewrite Hd, Hc. cbn [bind].
  pose proof (cell_cursor_bound _ _ _ Hd) as Bd.
  pose proof (cell_cursor_bound _ _ _ Hc) as Bc.
  apply Nat.ltb_lt in Bd, Bc. rewrite Bd, Bc.
  unfold next_state, queue_after, cursor_after.
  destruct (da - Z.min da ca =? 0), (ca - Z.min da ca =? 0); reflexivity.
Qed.

Lemma loop_guard_true st :
  loop_guard st = true ->
  exists dk da ck ca,
    nth_error (debtors st) (i st) = Some (dk, da) /\
    nth_error (creditors st) (j st) = Some (ck, ca).
Proof.
  unfold loop_guard. intros H. apply andb_true_iff in H as [Hd Hc].
  apply Nat.ltb_lt in Hd, Hc.
  destruct (nth_error (debtors st) (i st)) as [[dk da]|] eqn:Ed.
  - destruct (nth_error (creditors st) (j st)) as [[ck ca]|] eqn:Ec.
    + now exists dk, da, ck, ca.
    + apply nth_error_None in Ec. lia.
  - apply nth_error_None in Ed. lia.
Qed.

Lemma loop_guard_false st :
  loop_guard st = false ->
  (List.length (debtors st) <= i st)%nat \/ (List.length (creditors st) <= j st)%nat.
Proof.
  unfold loop_guard. intros H. apply andb_false_iff in H as [H|H];
    apply Nat.ltb_ge in H; auto.
Qed.

Lemma remaining_next st dk da ck ca :
  nth_error (debtors st) (i st) = Some (dk, da) ->
  nth_error (creditors st) (j st) = Some (ck, ca) ->
  (remaining (next_state st dk da ck ca) < remaining st)%nat.
Proof.
  intros Hd Hc. unfold remaining, next_state. cbn [debtors creditors i j].
  rewrite (cell_length _ _ _ _ (da - Z.min da ca) Hd).
  rewrite (cell_length _ _ _ _ (ca - Z.min da ca) Hc).
  pose proof (cell_cursor_bound _ _ _ Hd). pose proof (cell_cursor_bound _ _ _ Hc).
  unfold cursor_after.
  destruct (da - Z.min da ca =? 0) eqn:E1, (ca - Z.min da ca =? 0) eqn:E2; lia.
Qed.

(** The loop returns within [remaining st] iterations, and a property kept by
    every iteration holds of the state it returns. *)
Lemma while_loop_invariant (P : state -> Prop) :
  (forall st dk da ck ca,
      P st ->
      nth_error (debtors st) (i st) = Some (dk, da) ->
      nth_error (creditors st) (j st) = Some (ck, ca) ->
      P (next_state st dk da ck ca)) ->
  forall fuel st,
    P st -> (remaining st <= fuel)%nat ->
    exists st', while_loop fuel st = Returns st' /\ P st' /\ loop_guard st' = false.
Proof.
  intros Hstep. induction fuel as [|fuel IH]; intros st HP Hfuel.
  - simpl. destruct (loop_guard st) eqn:G.
    + destruct (loop_guard_true _ G) as (dk & da & ck & ca & Hd & Hc).
      pose proof (remaining_next _ _ _ _ _ Hd Hc). lia.
    + now exists st.
  - simpl. destruct (loop_guard st) eqn:G.
    + destruct (loop_guard_true _ G) as (dk & da & ck & ca & Hd & Hc).
      rewrite (loop_body_returns _ _ _ _ _ Hd Hc). cbn [bind].
      apply IH.
      * now apply Hstep.
      * pose proof (remaining_next _ _ _ _ _ Hd Hc). lia.
    + now exists st.
Qed.

(** *** What the loop keeps invariant *)

Lemma total_cell k a' r : total (cell k a' ++ r) = a' + total r.
Proof. unfold cell, total. destruct (a' =? 0) eqn:E; simpl; lia. Qed.

Lemma total_cons k a r : total ((k, a) :: r) = a + total r.
Proof. reflexivity. Qed.

Lemma amount_in_cons k a r x :
  amount_in ((k, a) :: r) x = (if String.eqb k x then a else 0) + amount_in r x.
Proof. reflexivity. Qed.

Lemma amount_in_cell k a' r x :
  amount_in (cell k a' ++ r) x = (if String.eqb k x then a' else 0) + amount_in r x.
Proof.
  unfold cell. destruct (a' =? 0) eqn:E; simpl.
  - destruct (String.eqb k x); lia.
  - apply amount_in_cons.
Qed.

Lemma all_positive_cell k a' r :
  0 <= a' -> all_positive r -> all_positive (cell k a' ++ r).
Proof.
  intros Ha Hr. unfold cell. destruct (a' =? 0) eqn:E; simpl; [assumption|].
  constructor; [simpl; lia | assumption].
Qed.

Lemma total_zero_nil l : all_positive l -> total l = 0 -> l = [].
Proof.
  intros Hpos. assert (Hge : forall l', all_positive l' -> 0 <= total l').
  { induction 1 as [|[k a] r Ha _ IH]; [reflexivity|].
    rewrite total_cons. simpl in Ha. lia. }
  destruct Hpos as [|[k a] r Ha Hr]; [reflexivity|].
  rewrite total_cons. specialize (Hge _ Hr). simpl in Ha. lia.
Qed.

Lemma skipn_nil_length {A : Type} (l : list A) n :
  skipn n l = [] <-> (List.length l <= n)%nat.
Proof.
  split; intros H.
  - pose proof (length_skipn n l) as E. rewrite H in E. simpl in E. lia.
  - now apply skipn_all2.
Qed.

Lemma edge_weight_in_edges g u v w :
  edge_weight g u v = Some w -> In (u, v, w) (edges g).
Proof.
  unfold edge_weight. destruct (Dict.get g u) as [nbrs|] eqn:E; [|discriminate].
  intros H. apply get_some_in in E, H.
  unfold edges. apply in_flat_map. exists (u, nbrs). split; [assumption|].
  apply in_map_iff. now exists (v, w).
Qed.

Lemma edges_add_edge_absent g u v w :
  edge_weight g u v = None ->
  Permutation (edges (add_edge g u v w)) ((u, v, w) :: edges g).
Proof.
  intros H. rewrite add_edge_put.
  rewrite <- (edges_add_node g u), <- (edges_add_node (add_node g u) v).
  apply edges_put_edge_absent. now rewrite !edge_weight_add_node.
Qed.

(** The two queues run out together when what is left of them has the same
    total. *)
Lemma queues_exhausted st :
  (i st <= List.length (debtors st))%nat ->
  (j st <= List.length (creditors st))%nat ->
  all_positive (rest_debtors st) ->
  all_positive (rest_creditors st) ->
  total (rest_debtors st) = total (rest_creditors st) ->
  loop_guard st = false ->
  i st = List.length (debtors st) /\ j st = List.length (creditors st).
Proof.
  intros Bi Bj Pd Pc Ht G.
  assert (Hboth : rest_debtors st = [] /\ rest_creditors st = []).
  { destruct (loop_guard_false _ G) as [L|L].
    - assert (E : rest_debtors st = []) by now apply skipn_nil_length.
      split; [assumption|].
      apply total_zero_nil; [assumption|].
      rewrite E in Ht. unfold total at 1 in Ht. simpl in Ht. lia.
    - assert (E : rest_creditors st = []) by now apply skipn_nil_length.
      split; [|assumption].
      apply total_zero_nil; [assumption|].
      rewrite E in Ht. unfold total at 2 in Ht. simpl in Ht. lia. }
  destruct Hboth as [E1 E2].
  apply skipn_nil_length in E1, E2. lia.
Qed.

Lemma inv_exhausted ds0 cs0 st :
  Inv ds0 cs0 st -> total ds0 = total cs0 -> loop_guard st = false ->
  i st = List.length (debtors st) /\ j st = List.length (creditors st).
Proof.
  intros H Hz G. pose proof (inv_total _ _ _ H).
  apply queues_exhausted; try apply H; [lia | assumption].
Qed.

(** Every iteration keeps the invariant. *)
Lemma inv_next ds0 cs0 st dk da ck ca :
  NoDup (map fst ds0) -> NoDup (map fst cs0) ->
  Inv ds0 cs0 st ->
  nth_error (debtors st) (i st) = Some (dk, da) ->
  nth_error (creditors st) (j st) = Some (ck, ca) ->
  Inv ds0 cs0 (next_state st dk da ck ca).
Proof.
  intros Hnd Hnc H Hd Hc.
  set (m := Z.min da ca). set (st' := next_state st dk da ck ca).
  pose proof (cell_rest_before _ _ _ _ Hd) as Rd.
  pose proof (cell_rest_before _ _ _ _ Hc) as Rc.
  fold (rest_debtors st) in Rd. fold (rest_creditors st) in Rc.
  assert (Rd' : rest_debtors st' = cell dk (da - m) ++ skipn (S (i st)) (debtors st))
    by apply (cell_rest_after _ _ _ _ (da - m) Hd).
  assert (Rc' : rest_creditors st' = cell ck (ca - m) ++ skipn (S (j st)) (creditors st))
    by apply (cell_rest_after _ _ _ _ (ca - m) Hc).
  assert (Dd' : done_debtors st' =
                done_debtors st ++ (if da - m =? 0 then [dk] else []))
    by apply (cell_done_after _ _ _ _ (da - m) Hd).
  assert (Dc' : done_creditors st' =
                done_creditors st ++ (if ca - m =? 0 then [ck] else []))
    by apply (cell_done_after _ _ _ _ (ca - m) Hc).
  pose proof (inv_pos_d _ _ _ H) as Pd. pose proof (inv_pos_c _ _ _ H) as Pc.
  rewrite Rd in Pd. rewrite Rc in Pc.
  assert (Hda : 0 < da) by apply (Forall_inv Pd).
  assert (Hca : 0 < ca) by apply (Forall_inv Pc).
  apply Forall_inv_tail in Pd, Pc.
  assert (Hfresh : edge_weight (graph st) dk ck = None).
  { destruct (edge_weight (graph st) dk ck) as [w|] eqn:E; [|reflexivity].
    exfalso. apply edge_weight_in_edges in E.
    destruct (inv_done _ _ _ H _ _ _ E) as [Hin|Hin].
    - apply (cell_key_fresh _ _ _ _ Hd); [|exact Hin].
      now rewrite (inv_keys_d _ _ _ H).
    - apply (cell_key_fresh _ _ _ _ Hc); [|exact Hin].
      now rewrite (inv_keys_c _ _ _ H). }
  assert (Hperm : Permutation (edges (graph st')) ((dk, ck, m) :: edges (graph st)))
    by apply (edges_add_edge_absent _ _ _ _ Hfresh).
  pose proof (cell_cursor_bound _ _ _ Hd) as Bd.
  pose proof (cell_cursor_bound _ _ _ Hc) as Bc.
  assert (Bi' : (i st' <= List.length (debtors st'))%nat).
  { subst st'. unfold next_state. cbn [i debtors].
    rewrite (cell_length _ _ _ _ (da - Z.min da ca) Hd).
    unfold cursor_after. destruct (da - Z.min da ca =? 0); lia. }
  assert (Bj' : (j st' <= List.length (creditors st'))%nat).
  { subst st'. unfold next_state. cbn [j creditors].
    rewrite (cell_length _ _ _ _ (ca - Z.min da ca) Hc).
    unfold cursor_after. destruct (ca - Z.min da ca =? 0); lia. }
  assert (Pd' : all_positive (rest_debtors st')).
  { rewrite Rd'. apply all_positive_cell; [lia | assumption]. }
  assert (Pc' : all_positive (rest_creditors st')).
  { rewrite Rc'. apply all_positive_cell; [lia | assumption]. }
  assert (Ht' : total (rest_debtors st') - total (rest_creditors st')
                = total ds0 - total cs0).
  { rewrite Rd', Rc', !total_cell. pose proof (inv_total _ _ _ H) as Ht.
    rewrite Rd, Rc, !total_cons in Ht. lia. }
  constructor; try assumption.
  - subst st'. unfold next_state. cbn [debtors].
    rewrite (cell_keys _ _ _ _ (da - Z.min da ca) Hd). apply H.
  - subst st'. unfold next_state. cbn [creditors].
    rewrite (cell_keys _ _ _ _ (ca - Z.min da ca) Hc). apply H.
  - intros x. rewrite (net_flow_perm _ _ x Hperm), net_flow_cons.
    rewrite Rd', Rc', !amount_in_cell.
    pose proof (inv_flow _ _ _ H x) as Hf.
    rewrite Rd, Rc, !amount_in_cons in Hf. cbn [credit debit].
    destruct (String.eqb ck x), (String.eqb dk x); lia.
  - intros u v w Hin. apply (Permutation_in _ Hperm) in Hin.
    rewrite Dd', Dc'. destruct Hin as [E|Hin].
    + injection E as <- <- <-.
      destruct (da - m =? 0) eqn:E1.
      * left. apply in_or_app. right. now left.
      * right. apply in_or_app. right.
        destruct (ca - m =? 0) eqn:E2; [now left | lia].
    + destruct (inv_done _ _ _ H _ _ _ Hin); [left|right]; apply in_or_app; now left.
  - intros u v w Hin. apply (Permutation_in _ Hperm) in Hin.
    destruct Hin as [E|Hin].
    + injection E as <- <- <-. repeat split.
      * rewrite <- (inv_keys_d _ _ _ H). eapply cell_key_in, Hd.
      * rewrite <- (inv_keys_c _ _ _ H). eapply cell_key_in, Hc.
      * lia.
    + now apply (inv_edges _ _ _ H).
  - intros Hz. rewrite (Permutation_length Hperm). cbn [List.length].
    assert (G : loop_guard st = true).
    { unfold loop_guard. apply andb_true_iff. split; now apply Nat.ltb_lt. }
    assert (Hn : (List.length (edges (graph st)) <= i st + j st)%nat).
    { destruct (inv_count _ _ _ H Hz) as [E|Hn]; [rewrite E; simpl; lia|].
      rewrite G in Hn. lia. }
    right.
    assert (Hi : i st' = cursor_after (i st) (da - m)) by reflexivity.
    assert (Hj : j st' = cursor_after (j st) (ca - m)) by reflexivity.
    assert (Ld : List.length (debtors st') = List.length (debtors st))
      by apply (cell_length _ _ _ _ (da - m) Hd).
    assert (Lc : List.length (creditors st') = List.length (creditors st))
      by apply (cell_length _ _ _ _ (ca - m) Hc).
    destruct (loop_guard st') eqn:G'.
    + unfold cursor_after in Hi, Hj.
      destruct (da - m =? 0) eqn:E1, (ca - m =? 0) eqn:E2; lia.
    + destruct (queues_exhausted st' Bi' Bj' Pd' Pc') as [Ei Ej];
        [lia | assumption |].
      unfold cursor_after in Hi, Hj.
      destruct (da - m =? 0) eqn:E1, (ca - m =? 0) eqn:E2; lia.
Qed.

(** *** The partition of a balance dictionary *)

Lemma partition_fold balance : forall ds cs,
  fold_left partition_step balance (ds, cs) =
  (ds ++ debtors_of balance, cs ++ creditors_of balance).
Proof.
  induction balance as [|[p a] b IH]; intros ds cs; cbn [fold_left].
  - unfold debtors_of, creditors_of. simpl. now rewrite !app_nil_r.
  - unfold partition_step at 2. unfold debtors_of, creditors_of, is_debtor, is_creditor.
    cbn [filter snd fst].
    destruct (a <? 0) eqn:E1.
    + rewrite IH. replace (a >? 0) with false by lia.
      cbn [map fst snd]. now rewrite <- app_assoc.
    + destruct (a >? 0) eqn:E2; rewrite IH; [|reflexivity].
      unfold creditors_of. now rewrite <- app_assoc.
Qed.

Lemma partition_balance_spec balance :
  partition_balance balance = (debtors_of balance, creditors_of balance).
Proof. unfold partition_balance. now rewrite partition_fold. Qed.

Lemma debtors_of_keys balance :
  map fst (debtors_of balance) = map fst (filter is_debtor balance).
Proof. unfold debtors_of. rewrite map_map. reflexivity. Qed.

Lemma nodup_filter_keys (f : party * Z -> bool) (b : balance_t) :
  NoDup (map fst b) -> NoDup (map fst (filter f b)).
Proof.
  induction b as [|[p a] b IH]; simpl; intros H; [constructor|].
  inversion H as [|? ? Hnotin Hnd]; subst.
  destruct (f (p, a)); simpl; [constructor|]; auto.
  intros Hin. apply Hnotin. apply in_map_iff in Hin as ((p' & a') & <- & Hin).
  apply filter_In in Hin as [Hin _]. apply in_map_iff. now exists (p', a').
Qed.

Lemma debtors_of_positive balance : all_positive (debtors_of balance).
Proof.
  unfold all_positive, debtors_of. apply Forall_map, Forall_forall.
  intros [p a] Hin. apply filter_In in Hin as [_ Hneg].
  unfold is_debtor in Hneg. simpl in *. lia.
Qed.

Lemma creditors_of_positive balance : all_positive (creditors_of balance).
Proof.
  unfold all_positive, creditors_of. apply Forall_forall.
  intros [p a] Hin. apply filter_In in Hin as [_ Hpos].
  unfold is_creditor in Hpos. simpl in *. lia.
Qed.

Lemma total_partition balance :
  total (creditors_of balance) - total (debtors_of balance) = sum_values balance.
Proof.
  unfold total, sum_values, creditors_of, debtors_of, is_debtor, is_creditor.
  induction balance as [|[p a] b IH]; [reflexivity|]. cbn [filter map snd fst zsum fold_right].
  destruct (a <? 0) eqn:E1, (a >? 0) eqn:E2;
    cbn [filter map snd fst zsum fold_right]; unfold zsum in *; lia.
Qed.

Lemma amount_in_partition balance x :
  amount_in (creditors_of balance) x - amount_in (debtors_of balance) x =
  amount_in balance x.
Proof.
  unfold amount_in, creditors_of, debtors_of, is_debtor, is_creditor.
  induction balance as [|[p a] b IH]; [reflexivity|]. cbn [filter map snd fst].
  destruct (a <? 0) eqn:E1, (a >? 0) eqn:E2;
    cbn [filter map snd fst zsum fold_right]; unfold zsum in *;
    destruct (String.eqb p x); lia.
Qed.

Lemma amount_in_absent (b : balance_t) x : ~ In x (map fst b) -> amount_in b x = 0.
Proof.
  unfold amount_in. induction b as [|[p a] b IH]; intros H; [reflexivity|].
  simpl in *. destruct (String.eqb_spec p x) as [->|Hne]; [tauto|].
  rewrite IH; tauto.
Qed.

Lemma amount_in_balance_of (b : balance_t) x :
  NoDup (map fst b) -> amount_in b x = balance_of b x.
Proof.
  unfold balance_of, Dict.get_default.
  induction b as [|[p a] b IH]; intros H; [reflexivity|].
  inversion H as [|? ? Hnotin Hnd]; subst.
  rewrite amount_in_cons. simpl.
  destruct (String.eqb_spec p x) as [->|Hne].
  - rewrite amount_in_absent by assumption. lia.
  - rewrite IH by assumption. lia.
Qed.

(** *** The loop on the queues of a balance dictionary *)

Lemma inv_init ds0 cs0 :
  all_positive ds0 -> all_positive cs0 ->
  Inv ds0 cs0 (mkState ds0 cs0 0 0 DiGraph_new).
Proof.
  intros Pd Pc. constructor.
  - reflexivity.
  - reflexivity.
  - cbn. lia.
  - cbn. lia.
  - exact Pd.
  - exact Pc.
  - reflexivity.
  - intros x. unfold rest_debtors, rest_creditors.
    cbn [debtors creditors i j graph skipn].
    change (edges DiGraph_new) with (@nil edge). rewrite net_flow_nil. lia.
  - intros u v w [].
  - intros u v w [].
  - intros _. now left.
Qed.

Lemma settle_returns (balance : balance_t) :
  NoDup (Dict.keys balance) ->
  exists st,
    settle balance = Returns st /\
    Inv (debtors_of balance) (creditors_of balance) st /\
    loop_guard st = false.
Proof.
  intros Hnd. unfold settle, init_state. rewrite partition_balance_spec.
  cbn [debtors creditors].
  apply while_loop_invariant.
  - intros st dk da ck ca H Hd Hc. apply inv_next; try assumption.
    + rewrite debtors_of_keys. now apply nodup_filter_keys.
    + now apply nodup_filter_keys.
  - apply inv_init; [apply debtors_of_positive | apply creditors_of_positive].
  - unfold remaining. cbn. lia.
Qed.

Lemma totals_agree (balance : balance_t) :
  sum_values balance = 0 -> total (debtors_of balance) = total (creditors_of balance).
Proof. intros H. pose proof (total_partition balance). lia. Qed.

Lemma inv_queue_lengths ds0 cs0 st :
  Inv ds0 cs0 st ->
  List.length (debtors st) = List.length ds0 /\
  List.length (creditors st) = List.length cs0.
Proof.
  intros H. split.
  - transitivity (List.length (map fst (debtors st))); [symmetry; apply length_map|].
    rewrite (inv_keys_d _ _ _ H). apply length_map.
  - transitivity (List.length (map fst (creditors st))); [symmetry; apply length_map|].
    rewrite (inv_keys_c _ _ _ H). apply length_map.
Qed.

(** On a zero-sum balance dictionary the loop ends with both queues
    exhausted, and the graph it built gives every party its balance. *)
Lemma settle_zero_sum (balance : balance_t) :
  NoDup (Dict.keys balance) ->
  sum_values balance = 0 ->
  exists st,
    settle balance = Returns st /\
    Inv (debtors_of balance) (creditors_of balance) st /\
    rest_debtors st = [] /\ rest_creditors st = [] /\
    forall p, net_flow (edges (graph st)) p = balance_of balance p.
Proof.
  intros Hnd Hz.
  destruct (settle_returns balance Hnd) as (st & Hst & HI & G).
  destruct (inv_exhausted _ _ _ HI (totals_agree _ Hz) G) as [Ei Ej].
  assert (Rd : rest_debtors st = []) by (apply skipn_nil_length; lia).
  assert (Rc : rest_creditors st = []) by (apply skipn_nil_length; lia).
  exists st. do 4 (split; [assumption|]).
  intros p. pose proof (inv_flow _ _ _ HI p) as Hf.
  rewrite Rd, Rc in Hf. change (amount_in [] p) with 0 in Hf.
  rewrite amount_in_partition, amount_in_balance_of in Hf by assumption.
  lia.
Qed.

(** ** C2: the settlement reproduces the net positions *)

(** C2. For every balance dictionary (its keys are distinct, as in any
    dictionary) whose values sum to zero the matching loop returns; in the
    graph it built, the amounts directed to a party
    minus the amounts directed away from it equal that party's balance; and
    both cursors have reached the end of their queues, so no debtor or
    creditor cell is left unmatched. *)
Theorem C2_settlement_reproduces_net_positions (balance : balance_t) :
  NoDup (Dict.keys balance) ->
  sum_values balance = 0 ->
  exists st,
    settle balance = Returns st /\
    (forall p,
        inflow (edges (graph st)) p - outflow (edges (graph st)) p
        = balance_of balance p) /\
    i st = List.length (debtors st) /\
    j st = List.length (creditors st) /\
    rest_debtors st = [] /\ rest_creditors st = [].
Proof.
  intros Hnd Hz.
  destruct (settle_zero_sum balance Hnd Hz) as (st & Hst & HI & Rd & Rc & Hflow).
  exists st. split; [assumption|]. split; [exact Hflow|].
  pose proof (inv_bound_i _ _ _ HI). pose proof (inv_bound_j _ _ _ HI).
  pose proof (proj1 (skipn_nil_length _ _) Rd).
  pose proof (proj1 (skipn_nil_length _ _) Rc).
  repeat split; try assumption; lia.
Qed.

Lemma C2_settlement_reproduces_net_positions_witness :
  NoDup (Dict.keys [("A", -70); ("B", 20); ("Z", 0); ("C", 50)]) /\
  sum_values [("A", -70); ("B", 20); ("Z", 0); ("C", 50)] = 0 /\
  exists st,
    settle [("A", -70); ("B", 20); ("Z", 0); ("C", 50)] = Returns st /\
    (forall p,
        inflow (edges (graph st)) p - outflow (edges (graph st)) p
        = balance_of [("A", -70); ("B", 20); ("Z", 0); ("C", 50)] p) /\
    i st = List.length (debtors st) /\
    j st = List.length (creditors st) /\
    rest_debtors st = [] /\ rest_creditors st = [].
Proof.
  assert (Hnd : NoDup (Dict.keys [("A", -70); ("B", 20); ("Z", 0); ("C", 50)])).
  { repeat constructor; simpl; intuition discriminate. }
  assert (Hz : sum_values [("A", -70); ("B", 20); ("Z", 0); ("C", 50)] = 0)
    by reflexivity.
  split; [exact Hnd|]. split; [exact Hz|].
  exact (C2_settlement_reproduces_net_positions _ Hnd Hz).
Defined.

(** ** C5: balances that do not sum to zero *)




(** ** C6: number and sign of the transfers *)

(** C6. For every zero-sum balance dictionary (with distinct keys) that has
    [d] debtors and [c] creditors, both nonzero, the loop emits at most
    [min d c + max d c - 1] transfers, each of a strictly positive amount. *)
Theorem C6_transfer_count_bound (balance : balance_t) :
  NoDup (Dict.keys balance) ->
  sum_values balance = 0 ->
  let d := List.length (filter is_debtor balance) in
  let c := List.length (filter is_creditor balance) in
  d <> 0%nat -> c <> 0%nat ->
  exists st,
    settle balance = Returns st /\
    (List.length (edges (graph st)) <= Nat.min d c + Nat.max d c - 1)%nat /\
    (forall u v w, In (u, v, w) (edges (graph st)) -> 0 < w).
Proof.
  intros Hnd Hz d c Hd Hc.
  destruct (settle_returns balance Hnd) as (st & Hst & HI & G).
  destruct (inv_exhausted _ _ _ HI (totals_agree _ Hz) G) as [Ei Ej].
  destruct (inv_queue_lengths _ _ _ HI) as [Ld Lc].
  assert (Ed : List.length (debtors_of balance) = d)
    by (unfold debtors_of; apply length_map).
  assert (Ec : List.length (creditors_of balance) = c) by reflexivity.
  exists st. split; [assumption|]. split.
  - destruct (inv_count _ _ _ HI (totals_agree _ Hz)) as [E|Hn].
    + rewrite E. simpl. lia.
    + rewrite G in Hn. lia.
  - intros u v w Hin. now apply (inv_edges _ _ _ HI) in Hin.
Qed.

Lemma C6_transfer_count_bound_witness :
  NoDup (Dict.keys [("A", -3); ("B", -2); ("C", 2); ("D", 3)]) /\
  sum_values [("A", -3); ("B", -2); ("C", 2); ("D", 3)] = 0 /\
  List.length (filter is_debtor [("A", -3); ("B", -2); ("C", 2); ("D", 3)]) <> 0%nat /\
  List.length (filter is_creditor [("A", -3); ("B", -2); ("C", 2); ("D", 3)]) <> 0%nat /\
  exists st,
    settle [("A", -3); ("B", -2); ("C", 2); ("D", 3)] = Returns st /\
    (List.length (edges (graph st)) <= Nat.min 2 2 + Nat.max 2 2 - 1)%nat /\
    (forall u v w, In (u, v, w) (edges (graph st)) -> 0 < w).
Proof.
  assert (Hnd : NoDup (Dict.keys [("A", -3); ("B", -2); ("C", 2); ("D", 3)])).
  { repeat constructor; simpl; intuition discriminate. }
  assert (Hz : sum_values [("A", -3); ("B", -2); ("C", 2); ("D", 3)] = 0)
    by reflexivity.
  assert (Hd : List.length (filter is_debtor
                 [("A", -3); ("B", -2); ("C", 2); ("D", 3)]) <> 0%nat)
    by discriminate.
  assert (Hc : List.length (filter is_creditor
                 [("A", -3); ("B", -2); ("C", 2); ("D", 3)]) <> 0%nat)
    by discriminate.
  split; [exact Hnd|]. split; [exact Hz|]. split; [exact Hd|]. split; [exact Hc|].
  exact (C6_transfer_count_bound _ Hnd Hz Hd Hc).
Defined.

(** ** The whole pipeline returns *)

Lemma compute_balances_returns txns :
  compute_balances txns = Returns (derive_balances (recorded_all DiGraph_new txns)).
Proof. unfold compute_balances. now rewrite aggregate_returns. Qed.

Lemma settlement_returns txns :
  exists st,
    settle (derive_balances (recorded_all DiGraph_new txns)) = Returns st /\
    settlement txns = Returns (edges (graph st)).
Proof.
  destruct (settle_returns _ (nodup_keys_derive (recorded_all DiGraph_new txns)))
    as (st & Hst & _).
  exists st. split; [assumption|].
  unfold settlement, optimize_transactions_floyd_warshall.
  rewrite aggregate_returns. cbn [bind]. rewrite Hst. reflexivity.
Qed.

Lemma debtor_key_negative (balance : balance_t) p :
  NoDup (Dict.keys balance) ->
  In p (map fst (debtors_of balance)) -> balance_of balance p < 0.
Proof.
  intros Hnd Hin. rewrite debtors_of_keys in Hin.
  apply in_map_iff in Hin as ([p' a] & <- & Hin).
  apply filter_In in Hin as [Hin Hneg].
  cbn [fst]. unfold balance_of, Dict.get_default. rewrite (in_get_nodup _ _ _ Hnd Hin).
  unfold is_debtor in Hneg. simpl in *. lia.
Qed.

Lemma creditor_key_positive (balance : balance_t) p :
  NoDup (Dict.keys balance) ->
  In p (map fst (creditors_of balance)) -> 0 < balance_of balance p.
Proof.
  intros Hnd Hin.
  apply in_map_iff in Hin as ([p' a] & <- & Hin).
  apply filter_In in Hin as [Hin Hpos].
  cbn [fst]. unfold balance_of, Dict.get_default. rewrite (in_get_nodup _ _ _ Hnd Hin).
  unfold is_creditor in Hpos. simpl in *. lia.
Qed.

(** Every transfer goes from a party with a negative balance to a party with
    a positive balance, and moves a positive amount. *)
Lemma transfer_endpoints (balance : balance_t) st u v w :
  NoDup (Dict.keys balance) ->
  Inv (debtors_of balance) (creditors_of balance) st ->
  In (u, v, w) (edges (graph st)) ->
  balance_of balance u < 0 /\ 0 < balance_of balance v /\ 0 < w.
Proof.
  intros Hnd HI Hin. destruct (inv_edges _ _ _ HI _ _ _ Hin) as (Hu & Hv & Hw).
  repeat split; [now apply debtor_key_negative | now apply creditor_key_positive | assumption].
Qed.

(** ** C9: empty input, and parties whose balance is zero *)

(** C9. The empty obligation list gives the empty balance dictionary and the
    empty settlement, without failure; and for every obligation list the
    pipeline returns, and a party whose derived balance is zero is neither
    the source nor the target of any transfer. *)
Theorem C9_empty_input_and_zero_balances :
  compute_balances [] = Returns [] /\
  settlement [] = Returns [] /\
  forall txns : list obligation,
  exists balance es,
    compute_balances txns = Returns balance /\
    settlement txns = Returns es /\
    forall p, balance_of balance p = 0 ->
              forall u v w, In (u, v, w) es -> u <> p /\ v <> p.
Proof.
  split; [reflexivity|]. split; [reflexivity|].
  intros txns.
  set (b := derive_balances (recorded_all DiGraph_new txns)).
  pose proof (nodup_keys_derive (recorded_all DiGraph_new txns)) as Hnd. fold b in Hnd.
  destruct (settle_returns b Hnd) as (st & Hst & HI & _).
  exists b, (edges (graph st)). split; [apply compute_balances_returns|]. split.
  - unfold settlement, optimize_transactions_floyd_warshall.
    rewrite aggregate_returns. cbn [bind]. fold b. rewrite Hst. reflexivity.
  - intros p Hp u v w Hin.
    destruct (transfer_endpoints b st u v w Hnd HI Hin) as (Hu & Hv & _).
    split; intros ->; lia.
Qed.

Lemma C9_empty_input_and_zero_balances_witness :
  exists balance es,
    compute_balances [("A", "B", 10); ("B", "C", 10)] = Returns balance /\
    settlement [("A", "B", 10); ("B", "C", 10)] = Returns es /\
    balance_of balance "B" = 0 /\
    forall u v w, In (u, v, w) es -> u <> "B" /\ v <> "B".
Proof.
  destruct (proj2 (proj2 C9_empty_input_and_zero_balances)
              [("A", "B", 10); ("B", "C", 10)]) as (b & es & Hb & Hs & H).
  exists b, es. split; [exact Hb|]. split; [exact Hs|].
  assert (Hz : balance_of b "B" = 0).
  { vm_compute in Hb. injection Hb as <-. reflexivity. }
  split; [exact Hz | exact (H "B" Hz)].
Defined.

(** ** C7: the order of the two queues *)

Lemma mem_In x l : mem x l = true <-> In x l.
Proof.
  unfold mem. rewrite existsb_exists. split.
  - intros (y & Hin & E). apply String.eqb_eq in E. now subst.
  - intros H. exists x. split; [assumption | apply String.eqb_refl].
Qed.

Lemma first_appearance_from_In l : forall seen x,
  In x (first_appearance_from seen l) <-> In x l /\ ~ In x seen.
Proof.
  induction l as [|y l IH]; intros seen x; simpl; [tauto|].
  destruct (mem y seen) eqn:E.
  - apply mem_In in E. rewrite IH. split.
    + tauto.
    + intros [[->|H] Hn]; [contradiction | tauto].
  - assert (Hy : ~ In y seen) by (rewrite <- mem_In; congruence).
    simpl. rewrite IH, in_app_iff. simpl.
    destruct (String.eqb_spec y x) as [->|Hne]; [tauto|]. tauto.
Qed.

Lemma first_appearance_from_NoDup l : forall seen,
  NoDup (first_appearance_from seen l).
Proof.
  induction l as [|y l IH]; intros seen; simpl; [constructor|].
  destruct (mem y seen); [apply IH|].
  constructor; [|apply IH].
  rewrite first_appearance_from_In, in_app_iff. simpl. tauto.
Qed.

(** [first_appearance l] lists exactly the elements of [l], once each. *)
Lemma first_appearance_In l x : In x (first_appearance l) <-> In x l.
Proof. unfold first_appearance. rewrite first_appearance_from_In. simpl. tauto. Qed.

Lemma first_appearance_NoDup l : NoDup (first_appearance l).
Proof. apply first_appearance_from_NoDup. Qed.

Lemma contains_mem {V : Type} (d : Dict.t V) k :
  Dict.contains d k = mem k (Dict.keys d).
Proof.
  unfold Dict.contains, mem, Dict.keys.
  induction d as [|[k' v] d IH]; [reflexivity|]. simpl.
  rewrite (String.eqb_sym k k'). destruct (String.eqb k' k); [reflexivity|].
  exact IH.
Qed.

Lemma keys_set {V : Type} (d : Dict.t V) k v :
  Dict.keys (Dict.set d k v) = inserted (Dict.keys d) k.
Proof.
  unfold inserted. rewrite <- contains_mem. unfold Dict.contains.
  destruct (Dict.get d k) as [v0|] eqn:E.
  - now apply keys_set_present with (v0 := v0).
  - now apply keys_set_absent.
Qed.

Lemma first_appearance_from_cons seen x l :
  seen ++ first_appearance_from seen (x :: l) =
  inserted seen x ++ first_appearance_from (inserted seen x) l.
Proof.
  unfold inserted. simpl. destruct (mem x seen); [reflexivity|].
  now rewrite <- app_assoc.
Qed.

Lemma keys_fold es : forall b : balance_t,
  Dict.keys (fold_left balance_step es b) =
  Dict.keys b ++ first_appearance_from (Dict.keys b) (endpoints es).
Proof.
  induction es as [|[[u v] w] es IH]; intros b; cbn [fold_left].
  - simpl. now rewrite app_nil_r.
  - rewrite IH. unfold balance_step. rewrite !keys_set.
    change (endpoints ((u, v, w) :: es)) with (u :: v :: endpoints es).
    now rewrite !first_appearance_from_cons.
Qed.

(** The keys of the derived balances, in iteration order. *)
Lemma keys_derive g :
  Dict.keys (derive_balances g) = first_appearance (endpoints (edges g)).
Proof. unfold derive_balances. now rewrite keys_fold. Qed.

Lemma filter_keys (f : party * Z -> bool) (h : party -> bool) (b : balance_t) :
  (forall item, In item b -> f item = h (fst item)) ->
  map fst (filter f b) = filter h (map fst b).
Proof.
  induction b as [|item b IH]; intros H; [reflexivity|]. simpl.
  rewrite <- (H item) by now left.
  destruct (f item); simpl; rewrite IH; auto; intros; apply H; now right.
Qed.

Lemma queue_order (balance : balance_t) :
  NoDup (Dict.keys balance) ->
  map fst (fst (partition_balance balance)) =
    filter (fun p => balance_of balance p <? 0) (Dict.keys balance) /\
  map fst (snd (partition_balance balance)) =
    filter (fun p => balance_of balance p >? 0) (Dict.keys balance).
Proof.
  intros Hnd. rewrite partition_balance_spec. cbn [fst snd]. split.
  - rewrite debtors_of_keys. apply filter_keys. intros [p a] Hin.
    unfold is_debtor, balance_of, Dict.get_default. cbn [fst snd].
    now rewrite (in_get_nodup _ _ _ Hnd Hin).
  - apply filter_keys. intros [p a] Hin.
    unfold is_creditor, balance_of, Dict.get_default. cbn [fst snd].
    now rewrite (in_get_nodup _ _ _ Hnd Hin).
Qed.

(** *** The enumeration order of the aggregated graph *)

Lemma keys_add_node g x : Dict.keys (add_node g x) = inserted (Dict.keys g) x.
Proof.
  unfold add_node, inserted. rewrite <- contains_mem.
  destruct (Dict.contains g x) eqn:E; [reflexivity|].
  rewrite keys_set. unfold inserted. now rewrite <- contains_mem, E.
Qed.

Lemma inserted_idem l x : inserted (inserted l x) x = inserted l x.
Proof.
  unfold inserted. destruct (mem x l) eqn:E; [now rewrite E|].
  assert (H : mem x (l ++ [x]) = true)
    by (apply mem_In, in_or_app; right; now left).
  now rewrite H.
Qed.

Lemma inserted_present l x : In x l -> inserted l x = l.
Proof. intros H. unfold inserted. apply mem_In in H. now rewrite H. Qed.

Lemma in_inserted l x y : In y l -> In y (inserted l x).
Proof.
  unfold inserted. destruct (mem x l); [auto|]. intros H. apply in_or_app. now left.
Qed.

Lemma in_inserted_same l x : In x (inserted l x).
Proof.
  unfold inserted. destruct (mem x l) eqn:E; [now apply mem_In|].
  apply in_or_app. right. now left.
Qed.

Lemma keys_put_edge g u v w : Dict.keys (put_edge g u v w) = inserted (Dict.keys g) u.
Proof. unfold put_edge. apply keys_set. Qed.

Lemma keys_recorded g p q a :
  closed g ->
  Dict.keys (recorded g p q a) = inserted (inserted (Dict.keys g) p) q.
Proof.
  intros Hc. unfold recorded.
  destruct (edge_weight g p q) as [w|] eqn:E.
  - rewrite keys_put_edge.
    assert (Hq : In q (Dict.keys g)) by (eapply Hc, edge_weight_in_edges, E).
    rewrite (inserted_present _ q) by now apply in_inserted.
    reflexivity.
  - rewrite add_edge_put, keys_put_edge, !keys_add_node.
    apply inserted_present, in_inserted, in_inserted_same.
Qed.

Lemma in_edges_recorded g p q a u v w :
  In (u, v, w) (edges (recorded g p q a)) ->
  (u = p /\ v = q) \/ In (u, v, w) (edges g).
Proof.
  unfold recorded. destruct (edge_weight g p q) as [w0|] eqn:E; intros Hin.
  - destruct (edges_put_edge_present g p q (w0 + a) w0 E) as (es & H1 & H2).
    apply (Permutation_in _ H2) in Hin. destruct Hin as [Heq|Hin].
    + left. injection Heq as <- <- _. now split.
    + right. apply (Permutation_in _ (Permutation_sym H1)). now right.
  - apply (Permutation_in _ (edges_add_edge_absent g p q a E)) in Hin.
    destruct Hin as [Heq|Hin]; [left | now right].
    injection Heq as <- <- _. now split.
Qed.

Lemma closed_recorded g p q a : closed g -> closed (recorded g p q a).
Proof.
  intros Hc u v w Hin. rewrite keys_recorded by assumption.
  destruct (in_edges_recorded _ _ _ _ _ _ _ Hin) as [[-> ->]|Hold].
  - apply in_inserted_same.
  - apply in_inserted, in_inserted. eapply Hc, Hold.
Qed.

Lemma keys_recorded_all txns : forall g,
  closed g ->
  Dict.keys (recorded_all g txns) =
  Dict.keys g ++ first_appearance_from (Dict.keys g) (endpoints txns).
Proof.
  induction txns as [|[[p q] a] txns IH]; intros g Hc; unfold recorded_all in *;
    cbn [fold_left].
  - simpl. now rewrite app_nil_r.
  - rewrite IH by now apply closed_recorded.
    rewrite keys_recorded by assumption.
    change (endpoints ((p, q, a) :: txns)) with (p :: q :: endpoints txns).
    now rewrite !first_appearance_from_cons.
Qed.

Lemma successors_add_node g x u : successors (add_node g x) u = successors g u.
Proof.
  unfold successors, Dict.get_default.
  destruct (add_node_cases g x) as [[_ ->]|[Hx ->]]; [reflexivity|].
  destruct (Dict.get g u) as [nbrs|] eqn:E.
  - now rewrite (get_app_present _ _ _ _ E).
  - rewrite get_app_absent by assumption. simpl.
    destruct (String.eqb x u); reflexivity.
Qed.

Lemma successors_put_edge g p q a u :
  Dict.keys (successors (put_edge g p q a) u) =
  if String.eqb p u then inserted (Dict.keys (successors g u)) q
  else Dict.keys (successors g u).
Proof.
  unfold successors, put_edge, Dict.get_default.
  destruct (String.eqb_spec p u) as [<-|Hne].
  - rewrite get_set_same. apply keys_set.
  - now rewrite get_set_other.
Qed.

Lemma successors_recorded g p q a u :
  Dict.keys (successors (recorded g p q a) u) =
  if String.eqb p u then inserted (Dict.keys (successors g u)) q
  else Dict.keys (successors g u).
Proof.
  unfold recorded. destruct (edge_weight g p q).
  - apply successors_put_edge.
  - rewrite add_edge_put, successors_put_edge, !successors_add_node. reflexivity.
Qed.

Lemma successors_recorded_all u txns : forall g,
  Dict.keys (successors (recorded_all g txns) u) =
  Dict.keys (successors g u) ++
  first_appearance_from (Dict.keys (successors g u)) (payees_of u txns).
Proof.
  induction txns as [|[[p q] a] txns IH]; intros g; unfold recorded_all in *;
    cbn [fold_left].
  - simpl. now rewrite app_nil_r.
  - rewrite IH, successors_recorded. unfold payees_of. cbn [filter fst snd].
    destruct (String.eqb p u); [|reflexivity].
    cbn [map fst snd]. now rewrite first_appearance_from_cons.
Qed.

(** The edges of a graph, read off its nodes and their successors. *)
Lemma edges_by_node g :
  NoDup (Dict.keys g) ->
  edges g = flat_map (fun u => edges_of_node u (successors g u)) (Dict.keys g).
Proof.
  unfold edges, Dict.keys. rewrite flat_map_concat_map, flat_map_concat_map, map_map.
  intros Hnd. f_equal. apply map_ext_in. intros [u nbrs] Hin.
  unfold successors, Dict.get_default. cbn [fst].
  now rewrite (in_get_nodup _ _ _ Hnd Hin).
Qed.

(** C7, as stated, fails: for [(A,B,1),(C,D,1),(A,E,1)] the parties first
    appear in the order A, B, C, D, E, so the creditors would be queued as
    B, D, E; the loop consumes them as B, E, D, and pays E from A, not D. *)
Lemma C7_queue_not_in_input_order :
  first_appearance (endpoints [("A", "B", 1); ("C", "D", 1); ("A", "E", 1)])
    = ["A"; "B"; "C"; "D"; "E"] /\
  exists g,
    aggregate [("A", "B", 1); ("C", "D", 1); ("A", "E", 1)] = Returns g /\
    map fst (snd (partition_balance (derive_balances g))) = ["B"; "E"; "D"] /\
    filter (fun p => balance_of (derive_balances g) p >? 0)
      (first_appearance
         (endpoints [("A", "B", 1); ("C", "D", 1); ("A", "E", 1)]))
      = ["B"; "D"; "E"] /\
    settlement [("A", "B", 1); ("C", "D", 1); ("A", "E", 1)]
      = Returns [("A", "B", 1); ("A", "E", 1); ("C", "D", 1)].
Proof.
  split; [reflexivity|]. eexists. split; [reflexivity|].
  repeat split; vm_compute; reflexivity.
Qed.

(** C7, amended. For every obligation list, the debtor queue and the creditor
    queue consumed by the matching loop are each ordered by the parties'
    first appearance in the edge enumeration of the aggregated graph.  That
    enumeration goes payer by payer: the nodes are in order of first
    appearance in the obligation list, and under each node come its payees
    in order of first appearance among that payer's obligations.  The queues
    and the settlement are thus a function of the input sequence. *)
Theorem C7_queue_order_of_ledger_enumeration (txns : list obligation) :
  exists g,
    aggregate txns = Returns g /\
    map fst (fst (partition_balance (derive_balances g))) =
      filter (fun p => balance_of (derive_balances g) p <? 0)
        (first_appearance (endpoints (edges g))) /\
    map fst (snd (partition_balance (derive_balances g))) =
      filter (fun p => balance_of (derive_balances g) p >? 0)
        (first_appearance (endpoints (edges g))) /\
    Dict.keys g = first_appearance (endpoints txns) /\
    (forall u, Dict.keys (successors g u) = first_appearance (payees_of u txns)) /\
    edges g = flat_map (fun u => edges_of_node u (successors g u)) (Dict.keys g).
Proof.
  exists (recorded_all DiGraph_new txns). split; [apply aggregate_returns|].
  assert (Hk : Dict.keys (recorded_all DiGraph_new txns)
               = first_appearance (endpoints txns)).
  { rewrite keys_recorded_all; [reflexivity|]. intros u v w []. }
  rewrite <- keys_derive.
  destruct (queue_order _ (nodup_keys_derive (recorded_all DiGraph_new txns)))
    as [Qd Qc].
  repeat split; try assumption.
  - intros u. now rewrite successors_recorded_all.
  - apply edges_by_node. rewrite Hk. apply first_appearance_NoDup.
Qed.

(** ** C10: self-loops *)

Lemma net_flow_ledger txns p :
  net_flow (edges (recorded_all DiGraph_new txns)) p = net_flow txns p.
Proof.
  rewrite net_flow_recorded_all. change (edges DiGraph_new) with (@nil edge).
  rewrite net_flow_nil. lia.
Qed.

(** The settlement of an obligation list gives every party the net position
    it has in the list, and never pays a party from itself. *)
Lemma settlement_spec txns :
  exists es,
    settlement txns = Returns es /\
    (forall p, net_flow es p = net_flow txns p) /\
    (forall x y w, In (x, y, w) es -> x <> y).
Proof.
  set (g := recorded_all DiGraph_new txns).
  destruct (settle_zero_sum (derive_balances g) (nodup_keys_derive g)
              (sum_values_derive g)) as (st & Hst & HI & _ & _ & Hflow).
  exists (edges (graph st)). split; [|split].
  - unfold settlement, optimize_transactions_floyd_warshall.
    rewrite aggregate_returns. cbn [bind]. fold g. rewrite Hst. reflexivity.
  - intros p. rewrite Hflow, balance_of_derive. apply net_flow_ledger.
  - intros x y w Hin.
    destruct (transfer_endpoints _ st x y w (nodup_keys_derive g) HI Hin)
      as (Hx & Hy & _).
    intros ->. lia.
Qed.

Lemma self_loop_neutral l1 l2 u a p :
  net_flow (l1 ++ (u, u, a) :: l2) p = net_flow (l1 ++ l2) p.
Proof.
  rewrite !net_flow_app, net_flow_cons. cbn [credit debit].
  destruct (String.eqb u p); lia.
Qed.

(** C10, as stated, fails: putting the self-loop [(d,d,7)] in front of
    [(b,c,2),(a,d,3)] changes which transfers come out, and adds one: the
    settlement has the transfer [(a,c,2)], which is not there without the
    self-loop. *)
Lemma C10_self_loop_changes_settlement :
  settlement [("b", "c", 2); ("a", "d", 3)]
    = Returns [("b", "c", 2); ("a", "d", 3)] /\
  settlement [("d", "d", 7); ("b", "c", 2); ("a", "d", 3)]
    = Returns [("b", "d", 2); ("a", "d", 1); ("a", "c", 2)] /\
  In ("a", "c", 2) [("b", "d", 2); ("a", "d", 1); ("a", "c", 2)] /\
  ~ In ("a", "c", 2) [("b", "c", 2); ("a", "d", 3)].
Proof.
  split; [vm_compute; reflexivity|]. split; [vm_compute; reflexivity|].
  split; [simpl; tauto|]. simpl. intuition discriminate.
Qed.

(** C10, amended. A self-loop obligation with a positive amount is accepted
    and recorded by aggregation without error; it leaves the derived net
    balance of every party unchanged; the settlement with it gives every
    party the same net position as the settlement without it, and never
    contains a transfer from a party to itself.  (It does make its party a
    node, which may change the order of the queues and hence which transfers
    realise those net positions.) *)
Theorem C10_self_loop_balance_neutral
    (l1 l2 : list obligation) (u : party) (a : Z) :
  0 < a ->
  exists g b b' es es',
    aggregate (l1 ++ (u, u, a) :: l2) = Returns g /\
    has_edge g u u = true /\
    compute_balances (l1 ++ (u, u, a) :: l2) = Returns b /\
    compute_balances (l1 ++ l2) = Returns b' /\
    (forall p, balance_of b p = balance_of b' p) /\
    settlement (l1 ++ (u, u, a) :: l2) = Returns es /\
    settlement (l1 ++ l2) = Returns es' /\
    (forall p, net_flow es p = net_flow es' p) /\
    (forall x y w, In (x, y, w) es -> x <> y).
Proof.
  intros _.
  destruct (settlement_spec (l1 ++ (u, u, a) :: l2)) as (es & Hes & Hflow & Hself).
  destruct (settlement_spec (l1 ++ l2)) as (es' & Hes' & Hflow' & _).
  exists (recorded_all DiGraph_new (l1 ++ (u, u, a) :: l2)),
         (derive_balances (recorded_all DiGraph_new (l1 ++ (u, u, a) :: l2))),
         (derive_balances (recorded_all DiGraph_new (l1 ++ l2))), es, es'.
  split; [apply aggregate_returns|]. split.
  { rewrite has_edge_weight, edge_weight_recorded_all.
    unfold amounts_for. rewrite filter_app. cbn [filter same_pair].
    rewrite !String.eqb_refl. cbn [andb]. rewrite map_app. cbn [map].
    destruct (map amount_of (filter (same_pair u u) l1)); reflexivity. }
  split; [apply compute_balances_returns|].
  split; [apply compute_balances_returns|].
  split.
  { intros p. rewrite !balance_of_derive, !net_flow_ledger.
    apply self_loop_neutral. }
  split; [assumption|]. split; [assumption|]. split; [|assumption].
  intros p. rewrite Hflow, Hflow'. apply self_loop_neutral.
Qed.

Lemma C10_self_loop_balance_neutral_witness :
  0 < 7 /\
  exists g b b' es es',
    aggregate ([] ++ ("d", "d", 7) :: [("b", "c", 2); ("a", "d", 3)]) = Returns g /\
    has_edge g "d" "d" = true /\
    compute_balances ([] ++ ("d", "d", 7) :: [("b", "c", 2); ("a", "d", 3)])
      = Returns b /\
    compute_balances ([] ++ [("b", "c", 2); ("a", "d", 3)]) = Returns b' /\
    (forall p, balance_of b p = balance_of b' p) /\
    settlement ([] ++ ("d", "d", 7) :: [("b", "c", 2); ("a", "d", 3)]) = Returns es /\
    settlement ([] ++ [("b", "c", 2); ("a", "d", 3)]) = Returns es' /\
    (forall p, net_flow es p = net_flow es' p) /\
    (forall x y w, In (x, y, w) es -> x <> y).
Proof.
  assert (H : 0 < 7) by lia.
  split; [exact H|].
  exact (C10_self_loop_balance_neutral [] [("b", "c", 2); ("a", "d", 3)] "d" 7 H).
Defined.

(** * Further properties of the code *)

(** ** [add_transaction] and the aggregated ledger *)

(** After [add_transaction], for any amount, the edge from payer to payee
    exists and carries the previous weight plus the amount (the amount alone
    when the edge is new); the weight, or the absence, of every other ordered
    pair is as before. *)
Theorem add_transaction_local_effect
    (self : DiGraph) (payer payee : party) (amount : Z) :
  exists g,
    add_transaction self payer payee amount = Returns g /\
    has_edge g payer payee = true /\
    edge_weight g payer payee =
      Some (match edge_weight self payer payee with
            | Some w => w + amount
            | None => amount
            end) /\
    forall u v, (u, v) <> (payer, payee) ->
                edge_weight g u v = edge_weight self u v.
Proof.
  exists (recorded self payer payee amount).
  split; [apply add_transaction_returns|].
  assert (E : edge_weight (recorded self payer payee amount) payer payee =
              Some (match edge_weight self payer payee with
                    | Some w => w + amount
                    | None => amount
                    end))
    by (rewrite edge_weight_recorded, !String.eqb_refl; reflexivity).
  split; [now rewrite has_edge_weight, E|]. split; [exact E|].
  intros u v Hne. rewrite edge_weight_recorded.
  destruct (String.eqb_spec payer u) as [->|]; [|reflexivity].
  destruct (String.eqb_spec payee v) as [->|]; [|reflexivity].
  congruence.
Qed.

(** The aggregated ledger in closed form: the edge from [u] to [v] carries
    the sum of the amounts of all obligations from [u] to [v], and there is
    no such edge exactly when the list has no such obligation. *)
Theorem ledger_closed_form (txns : list obligation) :
  exists g,
    aggregate txns = Returns g /\
    forall u v,
      edge_weight g u v =
      match amounts_for u v txns with
      | [] => None
      | _ :: _ => Some (zsum (amounts_for u v txns))
      end.
Proof.
  exists (recorded_all DiGraph_new txns). split; [apply aggregate_returns|].
  intros u v. rewrite edge_weight_recorded_all.
  change (edge_weight DiGraph_new u v) with (@None Z).
  unfold accumulate. destruct (amounts_for u v txns); [reflexivity|].
  f_equal.
Qed.

(** *** The aggregated graph is well formed *)

Lemma nodup_inserted l x : NoDup l -> NoDup (inserted l x).
Proof.
  intros H. unfold inserted. destruct (mem x l) eqn:E; [assumption|].
  apply NoDup_app; [assumption | constructor; [tauto | constructor] |].
  intros y Hy [<-|[]]. apply mem_In in Hy. congruence.
Qed.

Lemma in_set {V : Type} (d : Dict.t V) k v x y :
  In (x, y) (Dict.set d k v) -> (x, y) = (k, v) \/ In (x, y) d.
Proof.
  induction d as [|[k' v'] d IH]; simpl.
  - intros [H|[]]. left. now symmetry.
  - destruct (String.eqb_spec k' k) as [->|Hne]; simpl.
    + intros [H|H]; [left; now symmetry | right; now right].
    + intros [H|H]; [right; now left|].
      destruct (IH H); [now left | right; now right].
Qed.

Lemma successors_distinct_add_node g x :
  successors_distinct g -> successors_distinct (add_node g x).
Proof.
  intros H u nbrs Hin.
  destruct (add_node_cases g x) as [[_ E]|[_ E]]; rewrite E in Hin.
  - now apply (H u).
  - apply in_app_or in Hin as [Hin|[Heq|[]]]; [now apply (H u)|].
    injection Heq as <- <-. constructor.
Qed.

Lemma successors_nodup g u :
  successors_distinct g -> NoDup (Dict.keys (successors g u)).
Proof.
  intros H. unfold successors, Dict.get_default.
  destruct (Dict.get g u) as [nbrs|] eqn:E; [|constructor].
  apply (H u). now apply get_some_in.
Qed.

Lemma successors_distinct_put_edge g u v w :
  successors_distinct g -> successors_distinct (put_edge g u v w).
Proof.
  intros H x nbrs Hin. unfold put_edge in Hin.
  apply in_set in Hin as [Heq|Hin]; [|now apply (H x)].
  injection Heq as -> ->. apply nodup_keys_set.
  now apply (successors_nodup g u).
Qed.

Lemma successors_distinct_recorded g p q a :
  successors_distinct g -> successors_distinct (recorded g p q a).
Proof.
  intros H. unfold recorded. destruct (edge_weight g p q).
  - now apply successors_distinct_put_edge.
  - rewrite add_edge_put.
    now apply successors_distinct_put_edge, successors_distinct_add_node,
      successors_distinct_add_node.
Qed.

Lemma well_formed_recorded g p q a :
  well_formed g -> well_formed (recorded g p q a).
Proof.
  intros (Hk & Hs & Hc). split; [|split].
  - rewrite keys_recorded by assumption. now apply nodup_inserted, nodup_inserted.
  - now apply successors_distinct_recorded.
  - now apply closed_recorded.
Qed.

Lemma well_formed_new : well_formed DiGraph_new.
Proof.
  split; [constructor|]. split; [intros u nbrs []|]. intros u v w [].
Qed.

Lemma well_formed_recorded_all txns : forall g,
  well_formed g -> well_formed (recorded_all g txns).
Proof.
  induction txns as [|[[p q] a] txns IH]; intros g H; unfold recorded_all in *;
    cbn [fold_left]; [assumption|].
  now apply IH, well_formed_recorded.
Qed.

Lemma in_edges_entry g u v w :
  In (u, v, w) (edges g) <-> exists nbrs, In (u, nbrs) g /\ In (v, w) nbrs.
Proof.
  unfold edges. rewrite in_flat_map. split.
  - intros ([u' nbrs] & Hin & He). apply in_map_iff in He as ([v' w'] & Heq & Hvw).
    injection Heq as -> -> ->. now exists nbrs.
  - intros (nbrs & Hin & Hvw). exists (u, nbrs). split; [assumption|].
    apply in_map_iff. now exists (v, w).
Qed.

Lemma in_edges_source g u v w : In (u, v, w) (edges g) -> In u (Dict.keys g).
Proof.
  intros H. apply in_edges_entry in H as (nbrs & Hin & _).
  change u with (fst (u, nbrs)). now apply in_map.
Qed.

(** On a well-formed graph the enumeration and the lookup agree. *)
Lemma in_edges_weight g u v w :
  well_formed g -> (In (u, v, w) (edges g) <-> edge_weight g u v = Some w).
Proof.
  intros (Hk & Hs & _). split; [|apply edge_weight_in_edges].
  intros H. apply in_edges_entry in H as (nbrs & Hin & Hvw).
  unfold edge_weight. rewrite (in_get_nodup _ _ _ Hk Hin).
  apply in_get_nodup; [now apply (Hs u) | assumption].
Qed.

Lemma pairs_of_node u (nbrs : Dict.t Z) :
  map pair_of (edges_of_node u nbrs) = map (fun v => (u, v)) (Dict.keys nbrs).
Proof.
  unfold edges_of_node, Dict.keys. rewrite !map_map. apply map_ext.
  now intros [v w].
Qed.

Lemma nodup_map_pair (u : party) (l : list party) :
  NoDup l -> NoDup (map (fun v => (u, v)) l).
Proof.
  induction 1 as [|x l Hnotin _ IH]; simpl; constructor; [|assumption].
  intros H. apply in_map_iff in H as (y & E & Hy). injection E as ->. contradiction.
Qed.

Lemma nodup_pairs g :
  NoDup (Dict.keys g) -> successors_distinct g -> NoDup (map pair_of (edges g)).
Proof.
  induction g as [|[u nbrs] g IH]; intros Hk Hs; [constructor|].
  rewrite edges_cons, map_app. inversion Hk as [|? ? Hnotin Hk']; subst.
  apply NoDup_app.
  - rewrite pairs_of_node. apply nodup_map_pair. apply (Hs u). now left.
  - apply IH; [assumption|]. intros x n Hin. apply (Hs x). now right.
  - intros [a b] H1 H2. rewrite pairs_of_node in H1.
    apply in_map_iff in H1 as (v & Heq & _). injection Heq as <- <-.
    apply in_map_iff in H2 as ([[a' b'] c] & Heq & Hin).
    unfold pair_of in Heq. simpl in Heq. injection Heq as -> ->.
    apply Hnotin. eapply in_edges_source, Hin.
Qed.

(** The graph built by any sequence of [add_transaction] calls is well
    formed: its enumeration [edges] lists every ordered (payer, payee) pair
    at most once, and it lists [(u, v, w)] exactly when the weight of the
    edge from [u] to [v] is [w]. *)
Theorem aggregate_one_edge_per_pair (txns : list obligation) :
  exists g,
    aggregate txns = Returns g /\
    well_formed g /\
    NoDup (map pair_of (edges g)) /\
    forall u v w, In (u, v, w) (edges g) <-> edge_weight g u v = Some w.
Proof.
  exists (recorded_all DiGraph_new txns). split; [apply aggregate_returns|].
  pose proof (well_formed_recorded_all txns _ well_formed_new) as Hwf.
  split; [assumption|]. split.
  - destruct Hwf as (Hk & Hs & _). now apply nodup_pairs.
  - intros u v w. now apply in_edges_weight.
Qed.

Lemma zsum_cons a l : zsum (a :: l) = a + zsum l.
Proof. reflexivity. Qed.

Lemma zsum_nonneg l : Forall (fun a => 0 < a) l -> 0 <= zsum l.
Proof.
  induction 1 as [|a r Ha _ IH]; [reflexivity|]. rewrite zsum_cons. lia.
Qed.

Lemma zsum_positive l : Forall (fun a => 0 < a) l -> l <> [] -> 0 < zsum l.
Proof.
  intros H Hne. destruct H as [|a r Ha Hr]; [congruence|].
  pose proof (zsum_nonneg r Hr). rewrite zsum_cons. lia.
Qed.

Lemma amounts_for_positive u v txns :
  positive_amounts txns -> Forall (fun a => 0 < a) (amounts_for u v txns).
Proof.
  intros H. unfold amounts_for. apply Forall_map, Forall_forall.
  intros o Ho. apply filter_In in Ho as [Ho _].
  unfold positive_amounts in H. rewrite Forall_forall in H. now apply H.
Qed.

Lemma length_edges_recorded g p q a :
  (List.length (edges (recorded g p q a)) <= S (List.length (edges g)))%nat.
Proof.
  unfold recorded. destruct (edge_weight g p q) as [w0|] eqn:E.
  - destruct (edges_put_edge_present g p q (w0 + a) w0 E) as (es & H1 & H2).
    rewrite (Permutation_length H1), (Permutation_length H2). simpl. lia.
  - rewrite (Permutation_length (edges_add_edge_absent g p q a E)). simpl. lia.
Qed.

Lemma length_edges_recorded_all txns : forall g,
  (List.length (edges (recorded_all g txns)) <=
   List.length (edges g) + List.length txns)%nat.
Proof.
  induction txns as [|[[p q] a] txns IH]; intros g; unfold recorded_all in *;
    cbn [fold_left]; [simpl; lia|].
  specialize (IH (recorded g p q a)).
  pose proof (length_edges_recorded g p q a). simpl. lia.
Qed.

(** Positive amounts give a ledger whose edge weights are all positive, and
    aggregation never yields more edges than there are obligations. *)
Theorem ledger_weights_positive (txns : list obligation) :
  positive_amounts txns ->
  exists g,
    aggregate txns = Returns g /\
    (forall u v w, In (u, v, w) (edges g) -> 0 < w) /\
    (List.length (edges g) <= List.length txns)%nat.
Proof.
  intros Hpos. exists (recorded_all DiGraph_new txns).
  split; [apply aggregate_returns|]. split.
  - intros u v w Hin.
    apply (in_edges_weight _ _ _ _ (well_formed_recorded_all txns _ well_formed_new))
      in Hin.
    rewrite edge_weight_recorded_all in Hin.
    change (edge_weight DiGraph_new u v) with (@None Z) in Hin.
    pose proof (amounts_for_positive u v txns Hpos) as Hall.
    unfold accumulate in Hin.
    destruct (amounts_for u v txns) as [|a l] eqn:E; [discriminate|].
    injection Hin as <-.
    assert (H : 0 < zsum (a :: l))
      by (apply zsum_positive; [assumption | discriminate]).
    rewrite zsum_cons in H. lia.
  - apply (length_edges_recorded_all txns DiGraph_new).
Qed.

Lemma ledger_weights_positive_witness :
  positive_amounts [("A", "B", 10); ("A", "B", 5); ("B", "C", 3)] /\
  exists g,
    aggregate [("A", "B", 10); ("A", "B", 5); ("B", "C", 3)] = Returns g /\
    (forall u v w, In (u, v, w) (edges g) -> 0 < w) /\
    (List.length (edges g) <= 3)%nat.
Proof.
  assert (H : positive_amounts [("A", "B", 10); ("A", "B", 5); ("B", "C", 3)])
    by (repeat constructor).
  split; [exact H | exact (ledger_weights_positive _ H)].
Defined.

(** *** Balances in terms of the obligations *)

Lemma in_endpoints es p :
  In p (endpoints es) <->
  exists x, In x (map pair_of es) /\ (p = fst x \/ p = snd x).
Proof.
  unfold endpoints. rewrite in_flat_map. split.
  - intros ([[u v] w] & Hin & Hp). exists (u, v). split.
    + apply in_map_iff. now exists (u, v, w).
    + simpl in *. destruct Hp as [<- | [<- | []]]; auto.
  - intros ([u v] & Hin & Hp). apply in_map_iff in Hin as ([[u' v'] w] & E & Hin).
    unfold pair_of in E. simpl in E. injection E as -> ->.
    exists (u, v, w). split; [assumption|]. simpl in *.
    destruct Hp as [-> | ->]; auto.
Qed.

Lemma pairs_recorded g p q a x :
  In x (map pair_of (edges (recorded g p q a))) <->
  x = (p, q) \/ In x (map pair_of (edges g)).
Proof.
  unfold recorded. destruct (edge_weight g p q) as [w0|] eqn:E.
  - destruct (edges_put_edge_present g p q (w0 + a) w0 E) as (es & H1 & H2).
    apply (Permutation_map pair_of) in H1, H2. cbn [map] in H1, H2.
    change (pair_of (p, q, w0)) with (p, q) in H1.
    change (pair_of (p, q, w0 + a)) with (p, q) in H2.
    split.
    + intros H. right. apply (Permutation_in _ H2) in H.
      now apply (Permutation_in _ (Permutation_sym H1)).
    + intros [->|H].
      * apply (Permutation_in _ (Permutation_sym H2)). now left.
      * apply (Permutation_in _ H1) in H.
        now apply (Permutation_in _ (Permutation_sym H2)).
  - pose proof (Permutation_map pair_of (edges_add_edge_absent g p q a E)) as H.
    cbn [map] in H. change (pair_of (p, q, a)) with (p, q) in H.
    split.
    + intros Hx. apply (Permutation_in _ H) in Hx. destruct Hx; auto.
    + intros Hx. apply (Permutation_in _ (Permutation_sym H)).
      destruct Hx as [->|Hx]; [now left | now right].
Qed.

Lemma pairs_recorded_all txns : forall g x,
  In x (map pair_of (edges (recorded_all g txns))) <->
  In x (map pair_of (edges g)) \/ In x (map pair_of txns).
Proof.
  induction txns as [|[[p q] a] txns IH]; intros g x; unfold recorded_all in *;
    cbn [fold_left].
  - simpl. tauto.
  - rewrite IH, pairs_recorded. cbn [map]. change (pair_of (p, q, a)) with (p, q).
    simpl. intuition congruence.
Qed.

(** The parties of the ledger are the parties of the obligations. *)
Lemma endpoints_ledger txns p :
  In p (endpoints (edges (recorded_all DiGraph_new txns))) <-> In p (endpoints txns).
Proof.
  rewrite !in_endpoints. split; intros (x & Hx & Hp); exists x; split; auto.
  - apply pairs_recorded_all in Hx as [[]|Hx]. assumption.
  - apply pairs_recorded_all. now right.
Qed.

(** The derived balance of a party is what the obligations pay to it minus
    what they make it pay; the balance dictionary has one entry for every
    party that occurs in an obligation (also when its balance is zero), and
    for no other. *)
Theorem balances_closed_form (txns : list obligation) :
  exists balance,
    compute_balances txns = Returns balance /\
    NoDup (Dict.keys balance) /\
    (forall p, In p (Dict.keys balance) <-> In p (endpoints txns)) /\
    (forall p, balance_of balance p = inflow txns p - outflow txns p).
Proof.
  exists (derive_balances (recorded_all DiGraph_new txns)).
  split; [apply compute_balances_returns|].
  split; [apply nodup_keys_derive|]. split.
  - intros p. rewrite keys_derive, first_appearance_In. apply endpoints_ledger.
  - intros p. rewrite balance_of_derive. apply net_flow_ledger.
Qed.

(** ** The graph built by the matching loop *)

(** *** Where [add_edge] puts a new edge in the enumeration *)

Lemma not_in_get_none {V : Type} (d : Dict.t V) k :
  ~ In k (Dict.keys d) -> Dict.get d k = None.
Proof.
  intros H. destruct (Dict.get d k) as [v|] eqn:E; [|reflexivity].
  exfalso. apply H. apply get_some_in in E.
  change k with (fst (k, v)). now apply in_map.
Qed.

Lemma set_at {V : Type} (d1 d2 : Dict.t V) k x y :
  Dict.get d1 k = None ->
  Dict.set (d1 ++ (k, x) :: d2) k y = d1 ++ (k, y) :: d2.
Proof.
  induction d1 as [|[k' v'] d1 IH]; simpl; intros H.
  - now rewrite String.eqb_refl.
  - destruct (String.eqb k' k); [discriminate|]. now rewrite IH.
Qed.

Lemma get_at {V : Type} (d1 d2 : Dict.t V) k x :
  Dict.get d1 k = None -> Dict.get (d1 ++ (k, x) :: d2) k = Some x.
Proof.
  intros H. rewrite get_app_absent by assumption. simpl.
  now rewrite String.eqb_refl.
Qed.

Lemma edges_all_empty g : all_empty g -> edges g = [].
Proof.
  induction 1 as [|[u nbrs] g Hn _ IH]; [reflexivity|].
  simpl in Hn. subst nbrs. rewrite edges_cons, IH. reflexivity.
Qed.

Lemma add_node_idem g u : add_node (add_node g u) u = add_node g u.
Proof.
  destruct (add_node_cases g u) as [[Hn E]|[Hn E]]; rewrite E.
  - exact E.
  - destruct (add_node_cases (g ++ [(u, [])]) u) as [[_ E2]|[Hc _]]; [exact E2|].
    pose proof (get_at g [] u [] Hn) as G.
    exfalso. refine (eq_ind (Some []) (fun o => match o with Some _ => True | None => False end) I None _).
    transitivity (Dict.get (g ++ [(u, [])]) u); [symmetry; exact G | exact Hc].
Qed.

Lemma last_source_add_node g u v :
  last_source g u -> last_source (add_node g v) u.
Proof.
  intros (g1 & nbrs & g2 & -> & Hg1 & He).
  destruct (add_node_cases (g1 ++ (u, nbrs) :: g2) v) as [[_ E]|[_ E]]; rewrite E.
  - now exists g1, nbrs, g2.
  - exists g1, nbrs, (g2 ++ [(v, [])]). split; [|split; [assumption|]].
    + now rewrite <- app_assoc.
    + apply Forall_app. split; [assumption|]. now constructor.
Qed.

Lemma edges_put_edge_last g u v w :
  last_source g u -> edge_weight g u v = None ->
  edges (put_edge g u v w) = edges g ++ [(u, v, w)] /\
  last_source (put_edge g u v w) u.
Proof.
  intros (g1 & nbrs & g2 & -> & Hg1 & He) Hw.
  unfold edge_weight in Hw. rewrite (get_at g1 g2 u nbrs Hg1) in Hw.
  unfold put_edge, Dict.get_default. rewrite (get_at g1 g2 u nbrs Hg1).
  rewrite set_at by assumption. rewrite (set_absent nbrs v w Hw). split.
  - rewrite !edges_app, !edges_cons, edges_of_node_app, (edges_all_empty g2 He).
    simpl. now rewrite !app_nil_r, <- !app_assoc.
  - now exists g1, (nbrs ++ [(v, w)]), g2.
Qed.

(** A new edge whose payer is not yet a node, or is the node whose edges are
    enumerated last, goes to the end of the enumeration. *)
Lemma edges_add_edge_append g u v w :
  Dict.get g u = None \/ last_source g u ->
  edge_weight g u v = None ->
  edges (add_edge g u v w) = edges g ++ [(u, v, w)] /\
  last_source (add_edge g u v w) u.
Proof.
  intros Hu Hw.
  assert (Hl : last_source (add_node g u) u).
  { destruct Hu as [Hn|Hl].
    - destruct (add_node_cases g u) as [[Hc _]|[_ E]]; [congruence|]. rewrite E.
      exists g, [], []. split; [reflexivity|]. split; [assumption|constructor].
    - destruct (add_node_cases g u) as [[_ E]|[Hn _]]; [now rewrite E|].
      destruct Hl as (g1 & nbrs & g2 & -> & Hg1 & _).
      rewrite (get_at g1 g2 u nbrs Hg1) in Hn. discriminate. }
  rewrite add_edge_put.
  destruct (edges_put_edge_last (add_node (add_node g u) v) u v w) as [E L].
  - now apply last_source_add_node.
  - now rewrite !edge_weight_add_node.
  - split; [|assumption]. rewrite E, !edges_add_node. reflexivity.
Qed.

Lemma keys_add_edge g u v w :
  Dict.keys (add_edge g u v w) = inserted (inserted (Dict.keys g) u) v.
Proof.
  rewrite add_edge_put, keys_put_edge, !keys_add_node.
  apply inserted_present, in_inserted, in_inserted_same.
Qed.

Lemma in_inserted_iff l x y : In y (inserted l x) <-> y = x \/ In y l.
Proof.
  unfold inserted. destruct (mem x l) eqn:E.
  - apply mem_In in E. split; [auto|]. intros [->|H]; assumption.
  - rewrite in_app_iff. simpl. intuition.
Qed.

(** *** First appearances along a growing list *)

Lemma first_appearance_from_snoc l : forall seen x,
  seen ++ first_appearance_from seen (l ++ [x]) =
  inserted (seen ++ first_appearance_from seen l) x.
Proof.
  induction l as [|y l IH]; intros seen x.
  - cbn [app]. rewrite first_appearance_from_cons. simpl. now rewrite !app_nil_r.
  - change ((y :: l) ++ [x]) with (y :: (l ++ [x])).
    now rewrite !first_appearance_from_cons, IH.
Qed.

Lemma first_appearance_snoc l x :
  first_appearance (l ++ [x]) = inserted (first_appearance l) x.
Proof. exact (first_appearance_from_snoc l [] x). Qed.

Lemma filter_first_appearance_from (f : party -> bool) l : forall seen,
  filter f (first_appearance_from seen l) =
  first_appearance_from (filter f seen) (filter f l).
Proof.
  induction l as [|x l IH]; intros seen; [reflexivity|]. simpl.
  destruct (f x) eqn:Fx.
  - simpl. assert (E : mem x (filter f seen) = mem x seen).
    { destruct (mem x seen) eqn:M.
      - apply mem_In. apply filter_In. split; [now apply mem_In | assumption].
      - destruct (mem x (filter f seen)) eqn:M'; [|reflexivity].
        apply mem_In, filter_In in M' as [M' _]. apply mem_In in M'. congruence. }
    rewrite E. destruct (mem x seen); [apply IH|].
    simpl. rewrite Fx, IH, filter_app. simpl. now rewrite Fx.
  - destruct (mem x seen); [apply IH|].
    simpl. rewrite Fx, IH, filter_app. simpl. rewrite Fx. now rewrite app_nil_r.
Qed.

Lemma filter_first_appearance (f : party -> bool) l :
  filter f (first_appearance l) = first_appearance (filter f l).
Proof. exact (filter_first_appearance_from f l []). Qed.

(** *** The second invariant of the loop *)

Lemma nth_firstn_S {A : Type} (l : list A) n x :
  nth_error l n = Some x -> firstn (S n) l = firstn n l ++ [x].
Proof.
  revert n. induction l as [|y l IH]; intros [|n] H; simpl in *; try discriminate.
  - now injection H as ->.
  - now rewrite (IH n H).
Qed.

Lemma nodup_nth_fresh {A : Type} (l : list A) n x :
  NoDup l -> nth_error l n = Some x -> ~ In x (firstn n l).
Proof.
  revert n. induction l as [|y l IH]; intros [|n] Hnd H; simpl in *;
    try discriminate; [tauto|].
  inversion Hnd as [|? ? Hy Hl]; subst. intros [->|Hin].
  - apply Hy. eapply nth_error_In, H.
  - now apply (IH n Hl H).
Qed.

Lemma in_firstn_le {A : Type} (l : list A) n m x :
  (n <= m)%nat -> In x (firstn n l) -> In x (firstn m l).
Proof.
  revert n m. induction l as [|y l IH]; intros [|n] [|m] Hle H; simpl in *;
    try tauto; try lia.
  destruct H as [->|H]; [now left | right]. apply (IH n m); [lia | assumption].
Qed.

Lemma inserted_absent l x : ~ In x l -> inserted l x = l ++ [x].
Proof.
  intros H. unfold inserted. destruct (mem x l) eqn:E; [|reflexivity].
  apply mem_In in E. contradiction.
Qed.

Lemma weight_sum_app es1 es2 : weight_sum (es1 ++ es2) = weight_sum es1 + weight_sum es2.
Proof. unfold weight_sum. now rewrite map_app, zsum_app. Qed.

Lemma endpoints_app es1 es2 : endpoints (es1 ++ es2) = endpoints es1 ++ endpoints es2.
Proof. unfold endpoints. apply flat_map_app. Qed.

(** The loop never writes an edge twice: the pair under the cursors is not
    yet an edge of the new graph. *)
Lemma inv_fresh ds0 cs0 st dk da ck ca :
  NoDup (map fst ds0) -> NoDup (map fst cs0) ->
  Inv ds0 cs0 st ->
  nth_error (debtors st) (i st) = Some (dk, da) ->
  nth_error (creditors st) (j st) = Some (ck, ca) ->
  edge_weight (graph st) dk ck = None.
Proof.
  intros Hnd Hnc H Hd Hc.
  destruct (edge_weight (graph st) dk ck) as [w|] eqn:E; [|reflexivity].
  exfalso. apply edge_weight_in_edges in E.
  destruct (inv_done _ _ _ H _ _ _ E) as [Hin|Hin].
  - apply (cell_key_fresh _ _ _ _ Hd); [|exact Hin].
    now rewrite (inv_keys_d _ _ _ H).
  - apply (cell_key_fresh _ _ _ _ Hc); [|exact Hin].
    now rewrite (inv_keys_c _ _ _ H).
Qed.

Lemma nth_key (l : list entry) n k a :
  nth_error l n = Some (k, a) -> nth_error (map fst l) n = Some k.
Proof. intros H. exact (map_nth_error fst n l H). Qed.

Lemma inv2_init ds0 cs0 : Inv2 ds0 cs0 (mkState ds0 cs0 0 0 DiGraph_new).
Proof.
  constructor; cbn [graph i j debtors creditors].
  - reflexivity.
  - intros x. simpl. tauto.
  - intros x [].
  - intros dk _. now left.
  - now left.
  - now left.
Qed.

Lemma inv2_next ds0 cs0 st dk da ck ca :
  NoDup (map fst ds0) -> NoDup (map fst cs0) ->
  (forall x, In x (map fst ds0) -> ~ In x (map fst cs0)) ->
  Inv ds0 cs0 st -> Inv2 ds0 cs0 st ->
  nth_error (debtors st) (i st) = Some (dk, da) ->
  nth_error (creditors st) (j st) = Some (ck, ca) ->
  Inv2 ds0 cs0 (next_state st dk da ck ca).
Proof.
  intros Hnd Hnc Hdisj H H2 Hd Hc.
  set (m := Z.min da ca). set (st' := next_state st dk da ck ca).
  pose proof (inv_fresh _ _ _ _ _ _ _ Hnd Hnc H Hd Hc) as Hfresh.
  pose proof (nth_key _ _ _ _ Hd) as Kd. rewrite (inv_keys_d _ _ _ H) in Kd.
  pose proof (nth_key _ _ _ _ Hc) as Kc. rewrite (inv_keys_c _ _ _ H) in Kc.
  destruct (edges_add_edge_append (graph st) dk ck m (inv2_last _ _ _ H2 dk Kd) Hfresh)
    as [EE Hlast].
  change (add_edge (graph st) dk ck m) with (graph st') in EE, Hlast.
  assert (Hi : i st' = cursor_after (i st) (da - m)) by reflexivity.
  assert (Hj : j st' = cursor_after (j st) (ca - m)) by reflexivity.
  assert (Hi' : i st' = i st \/ i st' = S (i st))
    by (rewrite Hi; unfold cursor_after; destruct (da - m =? 0); auto).
  assert (Hj' : j st' = j st \/ j st' = S (j st))
    by (rewrite Hj; unfold cursor_after; destruct (ca - m =? 0); auto).
  assert (Hkeys : forall x, In x (Dict.keys (graph st')) ->
                            In x (firstn (S (i st)) (map fst ds0)) \/ In x (map fst cs0)).
  { intros x Hx. change (graph st') with (add_edge (graph st) dk ck m) in Hx.
    rewrite keys_add_edge in Hx.
    apply in_inserted_iff in Hx as [->|Hx].
    - right. eapply nth_error_In, Kc.
    - apply in_inserted_iff in Hx as [->|Hx].
      + left. rewrite (nth_firstn_S _ _ _ Kd). apply in_or_app. right. now left.
      + now apply (inv2_keys _ _ _ H2). }
  constructor.
  - rewrite EE, weight_sum_app.
    pose proof (cell_rest_before _ _ _ _ Hd) as Rd. fold (rest_debtors st) in Rd.
    assert (Rd' : rest_debtors st' = cell dk (da - m) ++ skipn (S (i st)) (debtors st))
      by apply (cell_rest_after _ _ _ _ (da - m) Hd).
    pose proof (inv2_weight _ _ _ H2) as Hw.
    rewrite Rd, total_cons in Hw. rewrite Rd', total_cell.
    change (weight_sum [(dk, ck, m)]) with (m + 0). lia.
  - intros x. change (graph st') with (add_edge (graph st) dk ck m) at 1.
    rewrite keys_add_edge, EE, endpoints_app, in_app_iff, !in_inserted_iff.
    rewrite (inv2_nodes _ _ _ H2 x). simpl. intuition.
  - intros x Hx. destruct (Hkeys x Hx) as [Hin|Hin]; [left | now right].
    apply (in_firstn_le _ (S (i st))); [lia | assumption].
  - intros dk' Hdk'. destruct Hi' as [E|E]; rewrite E in Hdk'.
    + right. assert (dk' = dk) by congruence. now subst.
    + left. apply not_in_get_none. intros Hx.
      destruct (Hkeys _ Hx) as [Hin|Hin].
      * now apply (nodup_nth_fresh _ _ _ Hnd Hdk').
      * apply (Hdisj dk'); [eapply nth_error_In, Hdk' | assumption].
  - assert (F : first_appearance (map source_of (edges (graph st')))
                = firstn (S (i st)) (map fst ds0)).
    { rewrite EE, map_app. cbn [map]. change (source_of (dk, ck, m)) with dk.
      rewrite first_appearance_snoc, (nth_firstn_S _ _ _ Kd).
      destruct (inv2_sources _ _ _ H2) as [F|F]; rewrite F.
      - apply inserted_absent. now apply (nodup_nth_fresh _ _ _ Hnd Kd).
      - rewrite (nth_firstn_S _ _ _ Kd). apply inserted_present.
        apply in_or_app. right. now left. }
    destruct Hi' as [E|E]; rewrite E; [now right | now left].
  - assert (F : first_appearance (map target_of (edges (graph st')))
                = firstn (S (j st)) (map fst cs0)).
    { rewrite EE, map_app. cbn [map]. change (target_of (dk, ck, m)) with ck.
      rewrite first_appearance_snoc, (nth_firstn_S _ _ _ Kc).
      destruct (inv2_targets _ _ _ H2) as [F|F]; rewrite F.
      - apply inserted_absent. now apply (nodup_nth_fresh _ _ _ Hnc Kc).
      - rewrite (nth_firstn_S _ _ _ Kc). apply inserted_present.
        apply in_or_app. right. now left. }
    destruct Hj' as [E|E]; rewrite E; [now right | now left].
Qed.

Lemma queues_disjoint (balance : balance_t) x :
  NoDup (Dict.keys balance) ->
  In x (map fst (debtors_of balance)) -> ~ In x (map fst (creditors_of balance)).
Proof.
  intros Hnd Hd Hc.
  pose proof (debtor_key_negative _ _ Hnd Hd).
  pose proof (creditor_key_positive _ _ Hnd Hc). lia.
Qed.

(** The loop on the queues of a balance dictionary returns in a state that
    satisfies both invariants. *)
Lemma settle_invariants (balance : balance_t) :
  NoDup (Dict.keys balance) ->
  exists st,
    settle balance = Returns st /\
    Inv (debtors_of balance) (creditors_of balance) st /\
    Inv2 (debtors_of balance) (creditors_of balance) st /\
    loop_guard st = false.
Proof.
  intros Hnd. unfold settle, init_state. rewrite partition_balance_spec.
  cbn [debtors creditors].
  assert (Nd : NoDup (map fst (debtors_of balance)))
    by (rewrite debtors_of_keys; now apply nodup_filter_keys).
  assert (Nc : NoDup (map fst (creditors_of balance)))
    by now apply nodup_filter_keys.
  destruct (while_loop_invariant
              (fun st => Inv (debtors_of balance) (creditors_of balance) st /\
                         Inv2 (debtors_of balance) (creditors_of balance) st))
    with (fuel := (List.length (debtors_of balance) +
                   List.length (creditors_of balance))%nat)
         (st := mkState (debtors_of balance) (creditors_of balance) 0 0 DiGraph_new)
    as (st & Hst & [HI HI2] & G).
  - intros st dk da ck ca [HI HI2] Hd Hc. split.
    + now apply inv_next.
    + apply inv2_next; try assumption. intros x. now apply queues_disjoint.
  - split; [apply inv_init; [apply debtors_of_positive | apply creditors_of_positive]
           | apply inv2_init].
  - unfold remaining. cbn. lia.
  - now exists st.
Qed.

(** ** [optimize_transactions_floyd_warshall] on an arbitrary graph *)

(** The matching loop ends from any state, whatever the queues hold: with
    the cursors inside the queues no subscript is out of range, and each
    iteration retires at least one cell, so [remaining st] iterations are
    enough; on exit one cursor has reached the end of its queue. *)
Theorem while_loop_terminates (st : state) :
  exists st',
    while_loop (remaining st) st = Returns st' /\
    loop_guard st' = false /\
    (remaining st' <= remaining st)%nat.
Proof.
  destruct (while_loop_invariant
              (fun s => (remaining s <= remaining st)%nat)) with
    (fuel := remaining st) (st := st) as (st' & Hst & Hle & G).
  - intros s dk da ck ca Hs Hd Hc.
    pose proof (remaining_next _ _ _ _ _ Hd Hc). lia.
  - lia.
  - lia.
  - now exists st'.
Qed.

Lemma inv_final_flow ds0 cs0 st :
  Inv ds0 cs0 st -> total ds0 = total cs0 -> loop_guard st = false ->
  forall p, net_flow (edges (graph st)) p = amount_in cs0 p - amount_in ds0 p.
Proof.
  intros HI Hz G p.
  destruct (inv_exhausted _ _ _ HI Hz G) as [Ei Ej].
  assert (Rd : rest_debtors st = []) by (apply skipn_nil_length; lia).
  assert (Rc : rest_creditors st = []) by (apply skipn_nil_length; lia).
  pose proof (inv_flow _ _ _ HI p) as Hf.
  rewrite Rd, Rc in Hf. change (amount_in [] p) with 0 in Hf. lia.
Qed.

(** The state in which the routine leaves its loop, for any graph. *)
Lemma optimize_final (g : DiGraph) :
  exists st,
    optimize_transactions_floyd_warshall g = Returns (graph st) /\
    settle (derive_balances g) = Returns st /\
    Inv (debtors_of (derive_balances g)) (creditors_of (derive_balances g)) st /\
    Inv2 (debtors_of (derive_balances g)) (creditors_of (derive_balances g)) st /\
    i st = List.length (debtors st) /\
    j st = List.length (creditors st) /\
    (forall p, net_flow (edges (graph st)) p = net_flow (edges g) p).
Proof.
  destruct (settle_invariants _ (nodup_keys_derive g)) as (st & Hst & HI & HI2 & G).
  pose proof (totals_agree _ (sum_values_derive g)) as Hz.
  destruct (inv_exhausted _ _ _ HI Hz G) as [Ei Ej].
  exists st. split.
  { unfold optimize_transactions_floyd_warshall. now rewrite Hst. }
  do 5 (split; [assumption|]).
  intros p. rewrite (inv_final_flow _ _ _ HI Hz G).
  rewrite amount_in_partition, amount_in_balance_of by apply nodup_keys_derive.
  apply balance_of_derive.
Qed.

(** For every graph the routine returns, and the graph it leaves gives every
    party the net position it had: what it receives minus what it pays is
    unchanged. *)
Theorem optimize_preserves_net_positions (g : DiGraph) :
  exists g',
    optimize_transactions_floyd_warshall g = Returns g' /\
    forall p,
      inflow (edges g') p - outflow (edges g') p =
      inflow (edges g) p - outflow (edges g) p.
Proof.
  destruct (optimize_final g) as (st & Hopt & _ & _ & _ & _ & _ & Hflow).
  exists (graph st). split; [assumption | exact Hflow].
Qed.

Lemma optimize_transfer_signs g st u v w :
  Inv (debtors_of (derive_balances g)) (creditors_of (derive_balances g)) st ->
  In (u, v, w) (edges (graph st)) ->
  net_flow (edges g) u < 0 /\ 0 < net_flow (edges g) v /\ 0 < w.
Proof.
  intros HI Hin.
  destruct (transfer_endpoints _ st u v w (nodup_keys_derive g) HI Hin)
    as (Hu & Hv & Hw).
  rewrite !balance_of_derive in *. auto.
Qed.

(** Every edge of the optimized graph carries a positive amount from a party
    whose net position was negative to a party whose net position was
    positive; so no party both pays and receives, and no edge is a
    self-loop. *)
Theorem optimize_bipartite (g : DiGraph) :
  exists g',
    optimize_transactions_floyd_warshall g = Returns g' /\
    (forall u v w,
        In (u, v, w) (edges g') ->
        inflow (edges g) u - outflow (edges g) u < 0 /\
        0 < inflow (edges g) v - outflow (edges g) v /\
        0 < w) /\
    (forall u v w x y z,
        In (u, v, w) (edges g') -> In (x, y, z) (edges g') -> u <> y).
Proof.
  destruct (optimize_final g) as (st & Hopt & _ & HI & _).
  exists (graph st). split; [assumption|]. split.
  - intros u v w Hin. exact (optimize_transfer_signs g st u v w HI Hin).
  - intros u v w x y z H1 H2 ->.
    destruct (optimize_transfer_signs g st _ _ _ HI H1) as (Hy & _).
    destruct (optimize_transfer_signs g st _ _ _ HI H2) as (_ & Hy' & _). lia.
Qed.

Lemma flows_not_endpoint es p :
  ~ In p (endpoints es) -> inflow es p = 0 /\ outflow es p = 0.
Proof.
  induction es as [|[[u v] w] es IH]; intros H; [split; reflexivity|].
  change (endpoints ((u, v, w) :: es)) with (u :: v :: endpoints es) in H.
  simpl in H. rewrite inflow_cons, outflow_cons. cbn [credit debit].
  destruct (String.eqb_spec v p) as [->|_]; [tauto|].
  destruct (String.eqb_spec u p) as [->|_]; [tauto|].
  destruct IH as [-> ->]; [tauto | split; reflexivity].
Qed.

Lemma in_endpoints_edge es p :
  In p (endpoints es) -> exists u v w, In (u, v, w) es /\ (p = u \/ p = v).
Proof.
  unfold endpoints. rewrite in_flat_map. intros ([[u v] w] & Hin & Hp).
  exists u, v, w. split; [assumption|]. simpl in Hp.
  destruct Hp as [<- | [<- | []]]; auto.
Qed.

(** The nodes of the optimized graph are exactly the parties whose net
    position in the given graph is not zero. *)
Theorem optimize_nodes_nonzero (g : DiGraph) :
  exists g',
    optimize_transactions_floyd_warshall g = Returns g' /\
    forall p,
      In p (Dict.keys g') <-> inflow (edges g) p - outflow (edges g) p <> 0.
Proof.
  destruct (optimize_final g) as (st & Hopt & _ & HI & HI2 & _ & _ & Hflow).
  exists (graph st). split; [assumption|].
  intros p. rewrite (inv2_nodes _ _ _ HI2). split.
  - intros Hp. apply in_endpoints_edge in Hp as (u & v & w & Hin & Hp).
    destruct (optimize_transfer_signs g st u v w HI Hin) as (Hu & Hv & _).
    unfold net_flow in *. destruct Hp as [-> | ->]; lia.
  - intros Hp.
    destruct (in_dec String.string_dec p (endpoints (edges (graph st)))) as [|Hn];
      [assumption|].
    exfalso. apply Hp. specialize (Hflow p). unfold net_flow in Hflow.
    destruct (flows_not_endpoint _ _ Hn) as [E1 E2]. lia.
Qed.

(** *** The amount moved *)

Lemma creditor_values (balance : balance_t) :
  NoDup (Dict.keys balance) ->
  map snd (creditors_of balance) =
  map (balance_of balance) (map fst (creditors_of balance)).
Proof.
  intros Hnd. rewrite map_map. apply map_ext_in. intros [p a] Hin.
  apply filter_In in Hin as [Hin _]. cbn [fst snd].
  unfold balance_of, Dict.get_default. now rewrite (in_get_nodup _ _ _ Hnd Hin).
Qed.

Lemma zsum_map_add {A : Type} (f h : A -> Z) l :
  zsum (map (fun x => f x + h x) l) = zsum (map f l) + zsum (map h l).
Proof. induction l as [|x l IH]; [reflexivity|]. cbn [map]. rewrite !zsum_cons. lia. Qed.

Lemma zsum_map_le {A : Type} (f h : A -> Z) l :
  (forall x, In x l -> f x <= h x) -> zsum (map f l) <= zsum (map h l).
Proof.
  induction l as [|x l IH]; intros H; [reflexivity|]. cbn [map]. rewrite !zsum_cons.
  pose proof (H x (or_introl eq_refl)).
  assert (zsum (map f l) <= zsum (map h l)) by (apply IH; intros; apply H; now right).
  lia.
Qed.

Lemma credit_once e ps :
  NoDup ps -> 0 <= snd e -> zsum (map (fun p => credit p e) ps) <= snd e.
Proof.
  destruct e as [[u v] w]. cbn [snd credit]. intros Hnd Hw.
  assert (Hz : forall l, ~ In v l ->
                 zsum (map (fun p => if String.eqb v p then w else 0) l) = 0).
  { induction l as [|p l IH]; intros Hn; [reflexivity|]. cbn [map]. rewrite zsum_cons.
    simpl in Hn. destruct (String.eqb_spec v p) as [->|_]; [tauto|].
    rewrite IH; tauto. }
  induction Hnd as [|p l Hp _ IH]; [simpl; lia|]. cbn [map]. rewrite zsum_cons.
  destruct (String.eqb_spec v p) as [->|_]; [rewrite Hz by assumption|]; lia.
Qed.

Lemma inflow_nonneg es p : (forall e, In e es -> 0 <= snd e) -> 0 <= inflow es p.
Proof.
  induction es as [|[[u v] w] es IH]; intros H; [reflexivity|].
  rewrite inflow_cons. cbn [credit].
  pose proof (H _ (or_introl eq_refl)) as Hw. cbn [snd] in Hw.
  assert (0 <= inflow es p) by (apply IH; intros; apply H; now right).
  destruct (String.eqb v p); lia.
Qed.

Lemma outflow_nonneg es p : (forall e, In e es -> 0 <= snd e) -> 0 <= outflow es p.
Proof.
  induction es as [|[[u v] w] es IH]; intros H; [reflexivity|].
  rewrite outflow_cons. cbn [debit].
  pose proof (H _ (or_introl eq_refl)) as Hw. cbn [snd] in Hw.
  assert (0 <= outflow es p) by (apply IH; intros; apply H; now right).
  destruct (String.eqb u p); lia.
Qed.

(** Distinct parties cannot receive, together, more than the edges carry. *)
Lemma sum_inflow_le es ps :
  NoDup ps -> (forall e, In e es -> 0 <= snd e) ->
  zsum (map (inflow es) ps) <= weight_sum es.
Proof.
  intros Hnd. induction es as [|e es IH]; intros H.
  - clear Hnd H. change (weight_sum []) with 0.
    induction ps as [|p ps IHp]; [reflexivity|]. cbn [map]. rewrite zsum_cons.
    change (inflow [] p) with 0. lia.
  - assert (E : map (inflow (e :: es)) ps =
                map (fun p => credit p e + inflow es p) ps)
      by (apply map_ext; intros p; apply inflow_cons).
    rewrite E, zsum_map_add.
    pose proof (credit_once e ps Hnd (H e (or_introl eq_refl))).
    assert (zsum (map (inflow es) ps) <= weight_sum es)
      by (apply IH; intros; apply H; now right).
    unfold weight_sum in *. cbn [map]. rewrite zsum_cons. lia.
Qed.

Lemma final_weight_sum (g : DiGraph) :
  exists g',
    optimize_transactions_floyd_warshall g = Returns g' /\
    weight_sum (edges g') = zsum (map snd (filter is_creditor (derive_balances g))) /\
    weight_sum (edges g') = - zsum (map snd (filter is_debtor (derive_balances g))).
Proof.
  destruct (optimize_final g) as (st & Hopt & _ & HI & HI2 & Ei & _).
  exists (graph st). split; [assumption|].
  assert (Rd : rest_debtors st = []) by (apply skipn_nil_length; lia).
  pose proof (inv2_weight _ _ _ HI2) as Hw. rewrite Rd in Hw.
  change (total []) with 0 in Hw.
  pose proof (totals_agree _ (sum_values_derive g)) as Hz.
  assert (Hneg : total (debtors_of (derive_balances g)) =
                 - zsum (map snd (filter is_debtor (derive_balances g)))).
  { unfold total, debtors_of. rewrite map_map. cbn [snd].
    generalize (filter is_debtor (derive_balances g)). intros l.
    induction l as [|x l IH]; [reflexivity|]. cbn [map]. rewrite !zsum_cons. lia. }
  split.
  - change (zsum (map snd (filter is_creditor (derive_balances g))))
      with (total (creditors_of (derive_balances g))). lia.
  - lia.
Qed.

(** The optimized graph moves, in total, exactly the sum of the positive
    balances (equally, the sum of the debts). *)
Theorem optimize_total_moved (g : DiGraph) :
  exists g',
    optimize_transactions_floyd_warshall g = Returns g' /\
    weight_sum (edges g') = zsum (map snd (filter is_creditor (derive_balances g))) /\
    weight_sum (edges g') = - zsum (map snd (filter is_debtor (derive_balances g))).
Proof. exact (final_weight_sum g). Qed.

(** No way of settling moves less: any list of non-negative transfers that
    gives every party the net position it has in [g] moves at least as much
    as the optimized graph; in particular the optimized graph never moves
    more than a graph with non-negative weights did. *)
Theorem optimize_moves_least (g : DiGraph) (es : list edge) :
  (forall e, In e es -> 0 <= snd e) ->
  (forall p, inflow es p - outflow es p = inflow (edges g) p - outflow (edges g) p) ->
  exists g',
    optimize_transactions_floyd_warshall g = Returns g' /\
    weight_sum (edges g') <= weight_sum es.
Proof.
  intros Hpos Hsame.
  destruct (final_weight_sum g) as (g' & Hopt & Hw & _).
  exists g'. split; [assumption|]. rewrite Hw.
  set (b := derive_balances g).
  pose proof (nodup_keys_derive g) as Hnd. fold b in Hnd.
  change (filter is_creditor b) with (creditors_of b).
  rewrite (creditor_values b Hnd).
  transitivity (zsum (map (inflow es) (map fst (creditors_of b)))).
  - apply zsum_map_le. intros p _. unfold b.
    rewrite balance_of_derive. unfold net_flow. rewrite <- Hsame.
    pose proof (outflow_nonneg es p Hpos). lia.
  - apply sum_inflow_le; [now apply nodup_filter_keys | assumption].
Qed.

Lemma optimize_moves_least_witness :
  (forall e, In e [("A", "C", 10)] -> 0 <= snd e) /\
  (forall p,
      inflow [("A", "C", 10)] p - outflow [("A", "C", 10)] p =
      inflow (edges [("A", [("B", 10)]); ("B", [("C", 10)]); ("C", [])]) p -
      outflow (edges [("A", [("B", 10)]); ("B", [("C", 10)]); ("C", [])]) p) /\
  exists g',
    optimize_transactions_floyd_warshall
      [("A", [("B", 10)]); ("B", [("C", 10)]); ("C", [])] = Returns g' /\
    weight_sum (edges g') <= weight_sum [("A", "C", 10)].
Proof.
  assert (H1 : forall e, In e [("A", "C", 10)] -> 0 <= snd e).
  { intros e [<-|[]]. simpl. lia. }
  assert (H2 : forall p,
      inflow [("A", "C", 10)] p - outflow [("A", "C", 10)] p =
      inflow (edges [("A", [("B", 10)]); ("B", [("C", 10)]); ("C", [])]) p -
      outflow (edges [("A", [("B", 10)]); ("B", [("C", 10)]); ("C", [])]) p).
  { intros p. unfold inflow, outflow. simpl.
    destruct (String.eqb "C" p), (String.eqb "A" p), (String.eqb "B" p); lia. }
  split; [exact H1|]. split; [exact H2|].
  exact (optimize_moves_least _ _ H1 H2).
Defined.

(** *** The order of the transfers, and a second run *)

Lemma firstn_keys_all (l : list entry) n :
  (List.length l <= n)%nat -> firstn n (map fst l) = map fst l.
Proof. intros H. apply firstn_all2. now rewrite length_map. Qed.

Lemma final_queue_order (g : DiGraph) :
  exists st,
    optimize_transactions_floyd_warshall g = Returns (graph st) /\
    first_appearance (map source_of (edges (graph st))) =
      map fst (debtors_of (derive_balances g)) /\
    first_appearance (map target_of (edges (graph st))) =
      map fst (creditors_of (derive_balances g)).
Proof.
  destruct (optimize_final g) as (st & Hopt & _ & HI & HI2 & Ei & Ej & _).
  exists st. split; [assumption|].
  destruct (inv_queue_lengths _ _ _ HI) as [Ld Lc].
  split.
  - destruct (inv2_sources _ _ _ HI2) as [F|F]; rewrite F;
      apply firstn_keys_all; lia.
  - destruct (inv2_targets _ _ _ HI2) as [F|F]; rewrite F;
      apply firstn_keys_all; lia.
Qed.

(** In the enumeration of the optimized graph the payers appear in the order
    of the debtor queue and the payees in the order of the creditor queue,
    and every queued party appears. *)
Theorem optimize_follows_queues (g : DiGraph) :
  exists g',
    optimize_transactions_floyd_warshall g = Returns g' /\
    first_appearance (map source_of (edges g')) =
      map fst (fst (partition_balance (derive_balances g))) /\
    first_appearance (map target_of (edges g')) =
      map fst (snd (partition_balance (derive_balances g))).
Proof.
  destruct (final_queue_order g) as (st & Hopt & Hs & Ht).
  exists (graph st). split; [assumption|].
  rewrite partition_balance_spec. cbn [fst snd]. now split.
Qed.

Lemma filter_endpoints_sources (h : party -> bool) es :
  (forall u v w, In (u, v, w) es -> h u = true /\ h v = false) ->
  filter h (endpoints es) = map source_of es.
Proof.
  induction es as [|[[u v] w] es IH]; intros H; [reflexivity|].
  change (endpoints ((u, v, w) :: es)) with (u :: v :: endpoints es).
  destruct (H u v w (or_introl eq_refl)) as [Hu Hv].
  cbn [filter map]. rewrite Hu, Hv, IH; [reflexivity|].
  intros u' v' w' Hin'. apply (H u' v' w'). now right.
Qed.

Lemma filter_endpoints_targets (h : party -> bool) es :
  (forall u v w, In (u, v, w) es -> h u = false /\ h v = true) ->
  filter h (endpoints es) = map target_of es.
Proof.
  induction es as [|[[u v] w] es IH]; intros H; [reflexivity|].
  change (endpoints ((u, v, w) :: es)) with (u :: v :: endpoints es).
  destruct (H u v w (or_introl eq_refl)) as [Hu Hv].
  cbn [filter map]. rewrite Hu, Hv, IH; [reflexivity|].
  intros u' v' w' Hin'. apply (H u' v' w'). now right.
Qed.

Lemma debtors_of_from_keys (balance : balance_t) :
  NoDup (Dict.keys balance) ->
  debtors_of balance =
  map (fun p => (p, - balance_of balance p)) (map fst (debtors_of balance)).
Proof.
  intros Hnd. rewrite debtors_of_keys. unfold debtors_of. rewrite map_map.
  apply map_ext_in. intros [p a] Hin. apply filter_In in Hin as [Hin _].
  cbn [fst snd]. unfold balance_of, Dict.get_default.
  now rewrite (in_get_nodup _ _ _ Hnd Hin).
Qed.

Lemma creditors_of_from_keys (balance : balance_t) :
  NoDup (Dict.keys balance) ->
  creditors_of balance =
  map (fun p => (p, balance_of balance p)) (map fst (creditors_of balance)).
Proof.
  intros Hnd. rewrite map_map. rewrite <- (map_id (creditors_of balance)) at 1.
  apply map_ext_in. intros [p a] Hin. apply filter_In in Hin as [Hin _].
  cbn [fst snd]. unfold balance_of, Dict.get_default.
  now rewrite (in_get_nodup _ _ _ Hnd Hin).
Qed.

Lemma queue_keys (balance : balance_t) :
  NoDup (Dict.keys balance) ->
  map fst (debtors_of balance) =
    filter (fun p => balance_of balance p <? 0) (Dict.keys balance) /\
  map fst (creditors_of balance) =
    filter (fun p => balance_of balance p >? 0) (Dict.keys balance).
Proof.
  intros Hnd. pose proof (queue_order balance Hnd) as H.
  rewrite partition_balance_spec in H. exact H.
Qed.

(** Running the routine on a graph it has produced changes nothing: the
    optimized graph is a fixed point. *)
Theorem optimize_idempotent (g : DiGraph) :
  exists g',
    optimize_transactions_floyd_warshall g = Returns g' /\
    optimize_transactions_floyd_warshall g' = Returns g'.
Proof.
  destruct (optimize_final g) as (st & Hopt & Hst & HI & HI2 & Ei & Ej & Hflow).
  exists (graph st). split; [assumption|].
  set (b := derive_balances g) in *. set (b' := derive_balances (graph st)).
  pose proof (nodup_keys_derive g) as Hnd. fold b in Hnd.
  pose proof (nodup_keys_derive (graph st)) as Hnd'. fold b' in Hnd'.
  assert (Hbal : forall p, balance_of b' p = balance_of b p).
  { intros p. unfold b', b. rewrite !balance_of_derive. apply Hflow. }
  assert (Hsign : forall u v w, In (u, v, w) (edges (graph st)) ->
                                balance_of b' u < 0 /\ 0 < balance_of b' v).
  { intros u v w Hin. rewrite !Hbal.
    destruct (transfer_endpoints b st u v w Hnd HI Hin) as (Hu & Hv & _). auto. }
  destruct (inv_queue_lengths _ _ _ HI) as [Ld Lc].
  destruct (queue_keys b' Hnd') as [Qd Qc].
  assert (Kd : map fst (debtors_of b') = map fst (debtors_of b)).
  { rewrite Qd. unfold b' at 2. rewrite keys_derive, filter_first_appearance.
    rewrite (filter_endpoints_sources _ (edges (graph st))).
    - destruct (inv2_sources _ _ _ HI2) as [F|F]; rewrite F;
        apply firstn_keys_all; lia.
    - intros u v w Hin. destruct (Hsign u v w Hin). split; lia. }
  assert (Kc : map fst (creditors_of b') = map fst (creditors_of b)).
  { rewrite Qc. unfold b' at 2. rewrite keys_derive, filter_first_appearance.
    rewrite (filter_endpoints_targets _ (edges (graph st))).
    - destruct (inv2_targets _ _ _ HI2) as [F|F]; rewrite F;
        apply firstn_keys_all; lia.
    - intros u v w Hin. destruct (Hsign u v w Hin). split; lia. }
  assert (Dd : debtors_of b' = debtors_of b).
  { rewrite (debtors_of_from_keys b' Hnd'), (debtors_of_from_keys b Hnd), Kd.
    apply map_ext. intros p. now rewrite Hbal. }
  assert (Dc : creditors_of b' = creditors_of b).
  { rewrite (creditors_of_from_keys b' Hnd'), (creditors_of_from_keys b Hnd), Kc.
    apply map_ext. intros p. now rewrite Hbal. }
  assert (Hsame : settle b' = settle b).
  { unfold settle, init_state. rewrite !partition_balance_spec. now rewrite Dd, Dc. }
  unfold optimize_transactions_floyd_warshall. fold b'. rewrite Hsame, Hst.
  reflexivity.
Qed.

(** *** No transfer exceeds what its parties owe or are owed *)

Lemma in_le_flows es u v w :
  (forall e, In e es -> 0 <= snd e) -> In (u, v, w) es ->
  w <= outflow es u /\ w <= inflow es v.
Proof.
  induction es as [|e es IH]; intros Hpos Hin; [destruct Hin|].
  rewrite outflow_cons, inflow_cons.
  assert (Hes : forall e', In e' es -> 0 <= snd e') by (intros; apply Hpos; now right).
  pose proof (outflow_nonneg es u Hes). pose proof (inflow_nonneg es v Hes).
  pose proof (Hpos e (or_introl eq_refl)) as He.
  destruct Hin as [->|Hin].
  - cbn [credit debit]. rewrite !String.eqb_refl. lia.
  - destruct (IH Hes Hin). destruct e as [[x y] z]. cbn [credit debit snd] in *.
    destruct (String.eqb x u), (String.eqb y v); lia.
Qed.

Lemma inflow_no_target es p :
  (forall u v w, In (u, v, w) es -> v <> p) -> inflow es p = 0.
Proof.
  induction es as [|[[u v] w] es IH]; intros H; [reflexivity|].
  rewrite inflow_cons. cbn [credit].
  destruct (String.eqb_spec v p) as [E|_].
  - exfalso. apply (H u v w); [now left | assumption].
  - rewrite IH; [reflexivity|]. intros; eapply H; right; eassumption.
Qed.

Lemma outflow_no_source es p :
  (forall u v w, In (u, v, w) es -> u <> p) -> outflow es p = 0.
Proof.
  induction es as [|[[u v] w] es IH]; intros H; [reflexivity|].
  rewrite outflow_cons. cbn [debit].
  destruct (String.eqb_spec u p) as [E|_].
  - exfalso. apply (H u v w); [now left | assumption].
  - rewrite IH; [reflexivity|]. intros; eapply H; right; eassumption.
Qed.

(** A transfer of the optimized graph is never larger than the net debt of
    its payer, nor than the net credit of its payee. *)
Theorem optimize_transfer_bounded (g : DiGraph) :
  exists g',
    optimize_transactions_floyd_warshall g = Returns g' /\
    forall u v w,
      In (u, v, w) (edges g') ->
      w <= outflow (edges g) u - inflow (edges g) u /\
      w <= inflow (edges g) v - outflow (edges g) v.
Proof.
  destruct (optimize_final g) as (st & Hopt & _ & HI & _ & _ & _ & Hflow).
  exists (graph st). split; [assumption|].
  intros u v w Hin.
  assert (Hpos : forall e, In e (edges (graph st)) -> 0 <= snd e).
  { intros [[x y] z] He. destruct (optimize_transfer_signs g st x y z HI He)
      as (_ & _ & Hz). cbn [snd]. lia. }
  destruct (in_le_flows _ u v w Hpos Hin) as [Ho Hi].
  assert (Iu : inflow (edges (graph st)) u = 0).
  { apply inflow_no_target. intros x y z He ->.
    destruct (optimize_transfer_signs g st _ _ _ HI He) as (_ & Hy & _).
    destruct (optimize_transfer_signs g st _ _ _ HI Hin) as (Hu & _). lia. }
  assert (Ov : outflow (edges (graph st)) v = 0).
  { apply outflow_no_source. intros x y z He ->.
    destruct (optimize_transfer_signs g st _ _ _ HI He) as (Hx & _).
    destruct (optimize_transfer_signs g st _ _ _ HI Hin) as (_ & Hv & _). lia. }
  pose proof (Hflow u) as Fu. pose proof (Hflow v) as Fv.
  unfold net_flow in Fu, Fv. lia.
Qed.

(** ** Small ledgers, for any parties and amounts *)

Lemma settle_debtor_first u v a :
  0 < a ->
  settle [(u, - a); (v, a)] =
  Returns (mkState [(u, a)] [(v, a)] 1 1 (add_edge DiGraph_new u v a)).
Proof.
  intros Ha. unfold settle, init_state, partition_balance. cbn [fold_left partition_step].
  assert (E1 : (- a <? 0) = true) by (apply Z.ltb_lt; lia).
  assert (E2 : (a <? 0) = false) by (apply Z.ltb_ge; lia).
  assert (E3 : (a >? 0) = true) by (apply Z.gtb_lt; lia).
  rewrite ?E1, ?E2, ?E3. cbn [fold_left partition_step]. rewrite ?E1, ?E2, ?E3.
  cbn [fold_left partition_step]. rewrite ?E1, ?E2, ?E3.
  cbn [app debtors creditors List.length Nat.add].
  rewrite Z.opp_involutive.
  cbn [while_loop loop_guard debtors creditors i j List.length Nat.ltb Nat.leb andb].
  unfold loop_body, getitem. cbn [nth_error debtors creditors i j bind graph].
  rewrite Z.min_id, Z.sub_diag. cbn [Z.eqb bind]. reflexivity.
Qed.

Lemma settle_creditor_first u v a :
  0 < a ->
  settle [(u, a); (v, - a)] =
  Returns (mkState [(v, a)] [(u, a)] 1 1 (add_edge DiGraph_new v u a)).
Proof.
  intros Ha. unfold settle, init_state, partition_balance. cbn [fold_left partition_step].
  assert (E1 : (- a <? 0) = true) by (apply Z.ltb_lt; lia).
  assert (E2 : (a <? 0) = false) by (apply Z.ltb_ge; lia).
  assert (E3 : (a >? 0) = true) by (apply Z.gtb_lt; lia).
  rewrite ?E1, ?E2, ?E3. cbn [fold_left partition_step]. rewrite ?E1, ?E2, ?E3.
  cbn [fold_left partition_step]. rewrite ?E1, ?E2, ?E3.
  cbn [app debtors creditors List.length Nat.add].
  rewrite Z.opp_involutive.
  cbn [while_loop loop_guard debtors creditors i j List.length Nat.ltb Nat.leb andb].
  unfold loop_body, getitem. cbn [nth_error debtors creditors i j bind graph].
  rewrite Z.min_id, Z.sub_diag. cbn [Z.eqb bind]. reflexivity.
Qed.

Lemma edges_add_edge_new u v a :
  u <> v -> edges (add_edge DiGraph_new u v a) = [(u, v, a)].
Proof.
  intros Hne. rewrite add_edge_new. apply String.eqb_neq in Hne. now rewrite Hne.
Qed.

Lemma derive_single u v a :
  u <> v -> derive_balances (add_edge DiGraph_new u v a) = [(u, - a); (v, a)].
Proof.
  intros Hne. unfold derive_balances. rewrite edges_add_edge_new by assumption.
  apply String.eqb_neq in Hne.
  cbn [fold_left balance_step Dict.set Dict.get_default Dict.get].
  rewrite Hne. unfold Dict.get_default. cbn [Dict.get]. rewrite ?Hne.
  replace (0 - a) with (- a) by lia. replace (0 + a) with a by lia. reflexivity.
Qed.

(** A ledger with a single obligation of a positive amount between two
    different parties is settled by that very transfer. *)
Theorem single_obligation_settlement (u v : party) (a : Z) :
  u <> v -> 0 < a ->
  settlement [(u, v, a)] = Returns [(u, v, a)].
Proof.
  intros Hne Ha. unfold settlement, optimize_transactions_floyd_warshall.
  rewrite aggregate_returns. cbn [bind].
  change (recorded_all DiGraph_new [(u, v, a)]) with (add_edge DiGraph_new u v a).
  rewrite derive_single by assumption.
  rewrite settle_debtor_first by assumption. cbn [bind graph].
  now rewrite edges_add_edge_new.
Qed.

Lemma single_obligation_settlement_witness :
  "A" <> "B" /\ 0 < 1 /\ settlement [("A", "B", 1)] = Returns [("A", "B", 1)].
Proof.
  assert (H1 : "A" <> "B") by discriminate.
  assert (H2 : 0 < 1) by lia.
  split; [exact H1|]. split; [exact H2|].
  exact (single_obligation_settlement "A" "B" 1 H1 H2).
Defined.

Lemma derive_mutual u v x y :
  u <> v ->
  derive_balances (recorded (add_edge DiGraph_new u v x) v u y) =
  [(u, y - x); (v, x - y)].
Proof.
  intros Hne. assert (Hvu : v <> u) by congruence.
  apply String.eqb_neq in Hne, Hvu.
  unfold recorded. rewrite edge_weight_add_edge, Hne. cbn [andb].
  change (edge_weight DiGraph_new v u) with (@None Z).
  assert (E : edges (add_edge (add_edge DiGraph_new u v x) v u y) =
              [(u, v, x); (v, u, y)]).
  { rewrite add_edge_new, Hne.
    unfold add_edge, add_node, Dict.contains, Dict.get_default.
    cbn [Dict.get Dict.set]. rewrite ?Hne, ?Hvu, ?String.eqb_refl.
    cbn [Dict.get Dict.set]. rewrite ?Hne, ?Hvu, ?String.eqb_refl.
    cbn [Dict.get Dict.set]. rewrite ?Hne, ?Hvu, ?String.eqb_refl.
    reflexivity. }
  unfold derive_balances. rewrite E.
  cbn [fold_left balance_step Dict.set Dict.get_default Dict.get].
  rewrite ?Hne, ?Hvu, ?String.eqb_refl.
  cbn [Dict.set Dict.get_default Dict.get]. rewrite ?Hne, ?Hvu, ?String.eqb_refl.
  cbn [Dict.set Dict.get_default Dict.get]. rewrite ?Hne, ?Hvu, ?String.eqb_refl.
  cbn [Dict.set Dict.get_default Dict.get]. rewrite ?Hne, ?Hvu, ?String.eqb_refl.
  repeat (unfold Dict.get_default; cbn [Dict.get Dict.set];
          rewrite ?Hne, ?Hvu, ?String.eqb_refl).
  replace (0 - x + y) with (y - x) by lia.
  replace (0 + x - y) with (x - y) by lia. reflexivity.
Qed.

(** Two parties that owe each other are settled by one transfer of the
    difference, from the one that owes more; equal debts cancel and leave no
    transfer. *)
Theorem mutual_debts_net (u v : party) (x y : Z) :
  u <> v -> 0 < x -> 0 < y ->
  settlement [(u, v, x); (v, u, y)] =
  Returns (if y <? x then [(u, v, x - y)]
           else if x <? y then [(v, u, y - x)]
           else []).
Proof.
  intros Hne Hx Hy. assert (Hvu : v <> u) by congruence.
  unfold settlement, optimize_transactions_floyd_warshall.
  rewrite aggregate_returns. cbn [bind].
  change (recorded_all DiGraph_new [(u, v, x); (v, u, y)])
    with (recorded (add_edge DiGraph_new u v x) v u y).
  rewrite derive_mutual by assumption.
  destruct (y <? x) eqn:E1.
  - apply Z.ltb_lt in E1.
    replace (y - x) with (- (x - y)) by lia.
    rewrite settle_debtor_first by lia. cbn [bind graph].
    now rewrite edges_add_edge_new.
  - apply Z.ltb_ge in E1. destruct (x <? y) eqn:E2.
    + apply Z.ltb_lt in E2.
      replace (x - y) with (- (y - x)) by lia.
      rewrite settle_creditor_first by lia. cbn [bind graph].
      now rewrite edges_add_edge_new.
    + apply Z.ltb_ge in E2. assert (x = y) by lia. subst y.
      rewrite Z.sub_diag. reflexivity.
Qed.

Lemma mutual_debts_net_witness :
  "A" <> "B" /\ 0 < 30 /\ 0 < 100 /\
  settlement [("A", "B", 30); ("B", "A", 100)] =
  Returns (if 100 <? 30 then [("A", "B", 30 - 100)]
           else if 30 <? 100 then [("B", "A", 100 - 30)]
           else []).
Proof.
  assert (H1 : "A" <> "B") by discriminate.
  assert (H2 : 0 < 30) by lia.
  assert (H3 : 0 < 100) by lia.
  split; [exact H1|]. split; [exact H2|]. split; [exact H3|].
  exact (mutual_debts_net "A" "B" 30 100 H1 H2 H3).
Defined.

(** ** How many transfers, and which *)

Lemma first_appearance_from_length l : forall seen,
  (List.length (first_appearance_from seen l) <= List.length l)%nat.
Proof.
  induction l as [|x l IH]; intros seen; simpl; [lia|].
  destruct (mem x seen).
  - specialize (IH seen). lia.
  - specialize (IH (seen ++ [x])). simpl. lia.
Qed.

Lemma first_appearance_length (l : list party) :
  (List.length (first_appearance l) <= List.length l)%nat.
Proof. apply first_appearance_from_length. Qed.

Lemma queues_within_parties (balance : balance_t) :
  (List.length (filter is_debtor balance) + List.length (filter is_creditor balance)
   <= List.length balance)%nat.
Proof.
  induction balance as [|[p a] b IH]; [simpl; lia|].
  cbn [filter]. unfold is_debtor at 1, is_creditor at 1. cbn [snd].
  destruct (a <? 0) eqn:E1, (a >? 0) eqn:E2; cbn [List.length]; lia.
Qed.

(** With [d] parties of negative and [c] parties of positive net position,
    the optimized graph has at least [max d c] and at most [d + c - 1]
    edges (none when nobody owes anything); so a graph with [n] parties is
    settled with at most [n - 1] transfers. *)
Theorem optimize_transfer_count (g : DiGraph) :
  let d := List.length (filter is_debtor (derive_balances g)) in
  let c := List.length (filter is_creditor (derive_balances g)) in
  exists g',
    optimize_transactions_floyd_warshall g = Returns g' /\
    (Nat.max d c <= List.length (edges g'))%nat /\
    (List.length (edges g') <= d + c - 1)%nat /\
    (List.length (edges g') <= List.length (Dict.keys (derive_balances g)) - 1)%nat.
Proof.
  intros d c.
  pose proof (queues_within_parties (derive_balances g)) as Hparties.
  fold d c in Hparties.
  assert (Hkeys : List.length (Dict.keys (derive_balances g)) =
                  List.length (derive_balances g)) by apply length_map.
  destruct (optimize_final g) as (st & Hopt & Hst & HI & HI2 & Ei & Ej & _).
  destruct (final_queue_order g) as (st1 & Hopt' & Hs & Ht).
  assert (E1 : graph st1 = graph st) by congruence. rewrite E1 in Hs, Ht.
  exists (graph st). split; [assumption|].
  destruct (inv_queue_lengths _ _ _ HI) as [Ld Lc].
  assert (Ed : List.length (debtors_of (derive_balances g)) = d)
    by (unfold debtors_of; apply length_map).
  assert (Ec : List.length (creditors_of (derive_balances g)) = c) by reflexivity.
  split.
  - pose proof (first_appearance_length (map source_of (edges (graph st)))) as Bs.
    pose proof (first_appearance_length (map target_of (edges (graph st)))) as Bt.
    rewrite Hs in Bs. rewrite Ht in Bt. rewrite !length_map in Bs, Bt.
    change (@Datatypes.length (party * Z)) with (@Datatypes.length entry) in Bs, Bt.
    lia.
  - assert (G : loop_guard st = false).
    { unfold loop_guard. apply andb_false_iff. left. apply Nat.ltb_ge. lia. }
    destruct (inv_count _ _ _ HI (totals_agree _ (sum_values_derive g))) as [E|Hn].
    + rewrite E. simpl. lia.
    + rewrite G in Hn. lia.
Qed.

Lemma emitted_edges ds0 cs0 :
  NoDup (map fst ds0) -> NoDup (map fst cs0) ->
  (forall x, In x (map fst ds0) -> ~ In x (map fst cs0)) ->
  forall fuel st,
    Inv ds0 cs0 st -> Inv2 ds0 cs0 st -> (remaining st <= fuel)%nat ->
    exists st',
      while_loop fuel st = Returns st' /\
      edges (graph st') = edges (graph st) ++ emitted fuel st.
Proof.
  intros Hnd Hnc Hdisj. induction fuel as [|fuel IH]; intros st HI HI2 Hfuel.
  - cbn [while_loop emitted]. destruct (loop_guard st) eqn:G.
    + destruct (loop_guard_true _ G) as (dk & da & ck & ca & Hd & Hc).
      pose proof (remaining_next _ _ _ _ _ Hd Hc). lia.
    + exists st. now rewrite app_nil_r.
  - cbn [while_loop emitted]. destruct (loop_guard st) eqn:G.
    + destruct (loop_guard_true _ G) as (dk & da & ck & ca & Hd & Hc).
      rewrite Hd, Hc, (loop_body_returns _ _ _ _ _ Hd Hc). cbn [bind].
      destruct (IH (next_state st dk da ck ca)) as (st' & Hst' & E).
      * now apply inv_next.
      * now apply inv2_next.
      * pose proof (remaining_next _ _ _ _ _ Hd Hc). lia.
      * exists st'. split; [assumption|]. rewrite E.
        pose proof (nth_key _ _ _ _ Hd) as Kd. rewrite (inv_keys_d _ _ _ HI) in Kd.
        destruct (edges_add_edge_append (graph st) dk ck (Z.min da ca)
                    (inv2_last _ _ _ HI2 dk Kd)
                    (inv_fresh _ _ _ _ _ _ _ Hnd Hnc HI Hd Hc)) as [EE _].
        change (graph (next_state st dk da ck ca))
          with (add_edge (graph st) dk ck (Z.min da ca)).
        rewrite EE, <- app_assoc. reflexivity.
    + exists st. now rewrite app_nil_r.
Qed.

(** The routine loses no transfer: the graph it returns enumerates exactly
    the transfers its loop handed to [add_edge], one edge per iteration, in
    the order of the iterations. *)
Theorem optimize_edges_are_emitted (g : DiGraph) :
  exists g',
    optimize_transactions_floyd_warshall g = Returns g' /\
    edges g' =
      emitted (List.length (debtors (init_state (derive_balances g))) +
               List.length (creditors (init_state (derive_balances g))))
              (init_state (derive_balances g)).
Proof.
  set (b := derive_balances g).
  pose proof (nodup_keys_derive g) as Hnd. fold b in Hnd.
  assert (Nd : NoDup (map fst (debtors_of b)))
    by (rewrite debtors_of_keys; now apply nodup_filter_keys).
  assert (Nc : NoDup (map fst (creditors_of b))) by now apply nodup_filter_keys.
  unfold optimize_transactions_floyd_warshall, settle. fold b.
  unfold init_state. rewrite partition_balance_spec. cbn [debtors creditors].
  destruct (emitted_edges (debtors_of b) (creditors_of b) Nd Nc
              (fun x => queues_disjoint b x Hnd)
              (List.length (debtors_of b) + List.length (creditors_of b))%nat
              (mkState (debtors_of b) (creditors_of b) 0 0 DiGraph_new))
    as (st & Hst & E).
  - apply inv_init; [apply debtors_of_positive | apply creditors_of_positive].
  - apply inv2_init.
  - unfold remaining. cbn. lia.
  - exists (graph st). rewrite Hst. split; [reflexivity | exact E].
Qed.

(** ** Manual input *)

Lemma add_manual_rows_filter txns : forall self,
  add_manual_rows self txns = add_transactions self (filter row_kept txns).
Proof.
  induction txns as [|[[p q] a] txns IH]; intros self; [reflexivity|].
  cbn [add_manual_rows filter row_kept].
  destruct (truthy_str p && truthy_str q && truthy_int a); [|apply IH].
  cbn [add_transactions]. rewrite add_transaction_returns. cbn [bind]. apply IH.
Qed.

(** In manual mode the rows with an empty payer, an empty payee or a zero
    amount are skipped: the ledger is the aggregation of the other rows, so
    the empty name is never a party of it and no row adds a zero amount. *)
Theorem manual_input_skips_blank_rows (txns : list obligation) :
  exists g,
    manual_input txns = Returns g /\
    aggregate (filter row_kept txns) = Returns g /\
    ~ In ""%string (Dict.keys g) /\
    (forall u v, amounts_for u v (filter row_kept txns) = [] ->
                 edge_weight g u v = None) /\
    Forall (fun o => amount_of o <> 0) (filter row_kept txns).
Proof.
  exists (recorded_all DiGraph_new (filter row_kept txns)).
  split; [unfold manual_input; rewrite add_manual_rows_filter;
          apply add_transactions_returns|].
  split; [apply aggregate_returns|]. split; [|split].
  - rewrite keys_recorded_all by (intros u v w []). cbn [Dict.keys DiGraph_new map app].
    fold (first_appearance (endpoints (filter row_kept txns))).
    rewrite first_appearance_In. intros Hin.
    apply in_endpoints_edge in Hin as (u & v & w & Hin & Hp).
    apply filter_In in Hin as [_ Hk]. cbn [row_kept] in Hk.
    apply andb_true_iff in Hk as [Hk _]. apply andb_true_iff in Hk as [Hu Hv].
    unfold truthy_str in Hu, Hv. apply negb_true_iff in Hu, Hv.
    apply String.eqb_neq in Hu, Hv. destruct Hp as [E | E]; congruence.
  - intros u v E. rewrite edge_weight_recorded_all, E. reflexivity.
  - apply Forall_forall. intros [[p q] a] Hin. apply filter_In in Hin as [_ Hk].
    cbn [row_kept] in Hk. apply andb_true_iff in Hk as [_ Ha].
    unfold truthy_int in Ha. apply negb_true_iff, Z.eqb_neq in Ha. exact Ha.
Qed.

(** ** The order of the rows *)

Lemma endpoints_perm es es' p :
  Permutation es es' -> In p (endpoints es) -> In p (endpoints es').
Proof.
  intros H Hin. apply in_endpoints_edge in Hin as (u & v & w & Hin & Hp).
  apply (Permutation_in _ H) in Hin. unfold endpoints. apply in_flat_map.
  exists (u, v, w). split; [assumption|]. simpl. destruct Hp as [-> | ->]; auto.
Qed.

(** The balances do not depend on the order of the obligations: a permuted
    list gives the same parties and the same balance for each of them, and
    its settlement leaves every party with the same net position (the
    transfers themselves may differ). *)
Theorem balances_order_independent (txns txns' : list obligation) :
  Permutation txns txns' ->
  exists b b' es es',
    compute_balances txns = Returns b /\
    compute_balances txns' = Returns b' /\
    (forall p, In p (Dict.keys b) <-> In p (Dict.keys b')) /\
    (forall p, balance_of b p = balance_of b' p) /\
    settlement txns = Returns es /\
    settlement txns' = Returns es' /\
    (forall p, inflow es p - outflow es p = inflow es' p - outflow es' p).
Proof.
  intros H.
  destruct (settlement_spec txns) as (es & Hes & Hflow & _).
  destruct (settlement_spec txns') as (es' & Hes' & Hflow' & _).
  exists (derive_balances (recorded_all DiGraph_new txns)),
         (derive_balances (recorded_all DiGraph_new txns')), es, es'.
  split; [apply compute_balances_returns|].
  split; [apply compute_balances_returns|]. split; [|split].
  - intros p. rewrite !keys_derive, !first_appearance_In, !endpoints_ledger.
    split; apply endpoints_perm; [assumption | now apply Permutation_sym].
  - intros p. rewrite !balance_of_derive, !net_flow_ledger.
    now apply net_flow_perm.
  - split; [assumption|]. split; [assumption|]. intros p.
    fold (net_flow es p) (net_flow es' p). rewrite Hflow, Hflow'.
    now apply net_flow_perm.
Qed.

Lemma balances_order_independent_witness :
  Permutation [("A", "B", 1); ("C", "D", 1); ("A", "E", 1)]
              [("A", "E", 1); ("A", "B", 1); ("C", "D", 1)] /\
  exists b b' es es',
    compute_balances [("A", "B", 1); ("C", "D", 1); ("A", "E", 1)] = Returns b /\
    compute_balances [("A", "E", 1); ("A", "B", 1); ("C", "D", 1)] = Returns b' /\
    (forall p, In p (Dict.keys b) <-> In p (Dict.keys b')) /\
    (forall p, balance_of b p = balance_of b' p) /\
    settlement [("A", "B", 1); ("C", "D", 1); ("A", "E", 1)] = Returns es /\
    settlement [("A", "E", 1); ("A", "B", 1); ("C", "D", 1)] = Returns es' /\
    (forall p, inflow es p - outflow es p = inflow es' p - outflow es' p).
Proof.
  assert (H : Permutation [("A", "B", 1); ("C", "D", 1); ("A", "E", 1)]
                          [("A", "E", 1); ("A", "B", 1); ("C", "D", 1)]).
  { symmetry.
    exact (Permutation_cons_append [("A", "B", 1); ("C", "D", 1)] ("A", "E", 1)). }
  split; [exact H | exact (balances_order_independent _ _ H)].
Defined.
